(** * The workload engine of gravity-swarm-mcp (src/index.ts)

    A shallow embedding of the deterministic compute core: the seeded
    generator [xorshift128plus], the radix-2 [fft], the eight task
    processors and the dispatcher [processTask].

    Conventions.
    - A JavaScript number that holds an integer (shard sizes, loop
      counters, 32-bit words) is a [Z]; the 32-bit conversions the
      bit operators perform are written out ([ToInt32], [ToUint32]),
      and so is the increment of a counter that can reach 2^53, where
      binary64 stops counting ([js_incr]).  Numbers that hold fractions
      are binary64 [float]s.
    - A JavaScript string is a [string]; [charCodeAt] is the character's
      code.
    - What the source takes from its platform and the language leaves to
      the implementation is a parameter of the development: the digest
      [sha256hex] (node:crypto), [Math.cos] and [Math.sin]
      (implementation-approximated) and the digits [Number::toString]
      picks for values of 1e21 and more.  [SHA256] gives the FIPS 180-4
      digest and [Reference] one admissible choice of the rest.
    - A loop whose counter the source does not bound by a constant or
      by the length of a buffer takes fuel; a call whose loops outlast
      every fuel does not terminate.
    - Limits of the runtime (memory for the buffers, the maximal length
      of a string) are outside the model. *)

From Stdlib Require Import ZArith Lia Bool List String Ascii.
From Stdlib Require Import DecimalString Floats.
Import ListNotations.

Local Open Scope string_scope.
Local Open Scope list_scope.
Local Open Scope Z_scope.

(** ** 32-bit conversions and bit operators of the language *)

Definition two32 : Z := 4294967296.

(** [x >>> 0] *)
Definition ToUint32 (z : Z) : Z := z mod two32.

(** the conversion every operand of [^], [<<], [>>], [&] goes through *)
Definition ToInt32 (z : Z) : Z :=
  let u := z mod two32 in
  if u <? 2147483648 then u else u - two32.

(** [a ^ b] *)
Definition js_xor (a b : Z) : Z := Z.lxor (ToInt32 a) (ToInt32 b).

(** [a & b] *)
Definition js_and (a b : Z) : Z := Z.land (ToInt32 a) (ToInt32 b).

(** [a << k] *)
Definition js_shl (a k : Z) : Z := ToInt32 (Z.shiftl (ToInt32 a) (k mod 32)).

(** [a >> k] *)
Definition js_shr (a k : Z) : Z := Z.shiftr (ToInt32 a) (k mod 32).

(** [a >>> k] *)
Definition js_ushr (a k : Z) : Z := Z.shiftr (ToUint32 a) (k mod 32).

(** ** Strings *)

(** [s.charCodeAt(i)] for each [i], in order *)
Definition charCodes (s : string) : list Z :=
  map (fun c => Z.of_N (N_of_ascii c)) (list_ascii_of_string s).

(** [String(n)] for an integer [n] *)
Definition String_of_Z (n : Z) : string :=
  NilZero.string_of_int (Z.to_int n).

(** [s.startsWith(p)] *)
Definition startsWith (s p : string) : bool := String.prefix p s.

(** [s.substring(0, k)] *)
Definition substring0 (s : string) (k : Z) : string :=
  String.substring 0 (Z.to_nat k) s.

(** a string in a condition: true unless empty *)
Definition truthy (s : string) : bool :=
  match s with EmptyString => false | String _ _ => true end.

(** ** SHA-256 (FIPS 180-4), the digest behind [createHash("sha256")] *)

Module SHA256.

Definition w32 (z : Z) : Z := z mod two32.

Definition rotr (x n : Z) : Z :=
  w32 (Z.lor (Z.shiftr x n) (Z.shiftl x (32 - n))).

Definition Ch (x y z : Z) : Z :=
  Z.lxor (Z.land x y) (Z.land (Z.lxor x (two32 - 1)) z).
Definition Maj (x y z : Z) : Z :=
  Z.lxor (Z.lxor (Z.land x y) (Z.land x z)) (Z.land y z).
Definition Sigma0 (x : Z) : Z :=
  Z.lxor (Z.lxor (rotr x 2) (rotr x 13)) (rotr x 22).
Definition Sigma1 (x : Z) : Z :=
  Z.lxor (Z.lxor (rotr x 6) (rotr x 11)) (rotr x 25).
Definition sigma0 (x : Z) : Z :=
  Z.lxor (Z.lxor (rotr x 7) (rotr x 18)) (Z.shiftr x 3).
Definition sigma1 (x : Z) : Z :=
  Z.lxor (Z.lxor (rotr x 17) (rotr x 19)) (Z.shiftr x 10).

(** the integer [bits]-bit root: the largest [r] with [r ^ k <= n] *)
Fixpoint iroot (k : Z) (bits : nat) (n r : Z) : Z :=
  match bits with
  | O => r
  | S b =>
      let c := r + 2 ^ Z.of_nat b in
      if c ^ k <=? n then iroot k b n c else iroot k b n r
  end.

Definition is_prime (p : Z) : bool :=
  forallb (fun d => negb (p mod d =? 0))
          (map Z.of_nat (seq 2 (Z.to_nat (p - 2)))).

(** the first 64 primes: 2, 3, 5, ..., 311 *)
Definition primes : list Z :=
  Eval vm_compute in filter is_prime (map Z.of_nat (seq 2 310)).

(** the first 32 bits of the fractional part of the root of each prime *)
Definition frac_root (k : Z) (p : Z) : Z :=
  iroot k 40 (p * 2 ^ (32 * k)) 0 mod two32.

(** the round constants, from the cube roots *)
Definition K : list Z := Eval vm_compute in map (frac_root 3) primes.

(** the eight working variables, also the chaining value *)
Record regs : Type := mkRegs
  { ra : Z; rb : Z; rc : Z; rd : Z; re : Z; rf : Z; rg : Z; rh : Z }.

(** the initial hash value, from the square roots of the first primes *)
Definition H0 : regs :=
  Eval vm_compute in
    match map (frac_root 2) (firstn 8 primes) with
    | [a; b; c; d; e; f; g; h] => mkRegs a b c d e f g h
    | _ => mkRegs 0 0 0 0 0 0 0 0
    end.

(** message bytes, then 0x80, zeros, and the bit length on 8 bytes *)
Definition pad (msg : list Z) : list Z :=
  let len := Z.of_nat (List.length msg) in
  let zeros := Z.to_nat ((55 - len) mod 64) in
  let bits := 8 * len in
  msg ++ [128] ++ repeat 0 zeros
      ++ map (fun i => Z.shiftr bits (8 * (7 - i)) mod 256)
             [0; 1; 2; 3; 4; 5; 6; 7].

Fixpoint words (fuel : nat) (bs : list Z) : list Z :=
  match fuel, bs with
  | S fuel', b0 :: b1 :: b2 :: b3 :: rest =>
      (((b0 * 256 + b1) * 256 + b2) * 256 + b3) :: words fuel' rest
  | _, _ => []
  end.

(** the message schedule: [w] holds the last 16 words, oldest first *)
Fixpoint schedule (n : nat) (w : list Z) : list Z :=
  match n with
  | O => []
  | S n' =>
      let nw := w32 (sigma1 (nth 14 w 0) + nth 9 w 0
                     + sigma0 (nth 1 w 0) + nth 0 w 0) in
      nw :: schedule n' (tl w ++ [nw])
  end.

Definition round (r : regs) (kw : Z * Z) : regs :=
  let t1 := rh r + Sigma1 (re r) + Ch (re r) (rf r) (rg r)
            + fst kw + snd kw in
  let t2 := Sigma0 (ra r) + Maj (ra r) (rb r) (rc r) in
  mkRegs (w32 (t1 + t2)) (ra r) (rb r) (rc r)
         (w32 (rd r + t1)) (re r) (rf r) (rg r).

Definition compress (h : regs) (block : list Z) : regs :=
  let w := block ++ schedule 48 block in
  let r := fold_left round (combine K w) h in
  mkRegs (w32 (ra h + ra r)) (w32 (rb h + rb r))
         (w32 (rc h + rc r)) (w32 (rd h + rd r))
         (w32 (re h + re r)) (w32 (rf h + rf r))
         (w32 (rg h + rg r)) (w32 (rh h + rh r)).

Fixpoint blocks (fuel : nat) (h : regs) (ws : list Z) : regs :=
  match fuel, ws with
  | S fuel', _ :: _ => blocks fuel' (compress h (firstn 16 ws)) (skipn 16 ws)
  | _, _ => h
  end.

Definition hexdigit (n : Z) : ascii :=
  nth (Z.to_nat (n mod 16))
      (list_ascii_of_string "0123456789abcdef") "0"%char.

Definition hex8 (w : Z) (k : string) : string :=
  String (hexdigit (Z.shiftr w 28)) (String (hexdigit (Z.shiftr w 24))
 (String (hexdigit (Z.shiftr w 20)) (String (hexdigit (Z.shiftr w 16))
 (String (hexdigit (Z.shiftr w 12)) (String (hexdigit (Z.shiftr w 8))
 (String (hexdigit (Z.shiftr w 4))  (String (hexdigit w) k))))))).

Definition hex (r : regs) : string :=
  hex8 (ra r) (hex8 (rb r) (hex8 (rc r) (hex8 (rd r)
 (hex8 (re r) (hex8 (rf r) (hex8 (rg r) (hex8 (rh r) ""))))))).

Definition digest (msg : list Z) : regs :=
  let ws := words (List.length msg + 72) (pad msg) in
  blocks (List.length ws) H0 ws.

(** the lowercase hex digest of the string's bytes *)
Definition sha256hex (data : string) : string :=
  hex (digest (charCodes data)).

End SHA256.

(** ** Outcomes

    A call returns a value, raises, or is still running when the fuel
    given to its unbounded loops is used up. *)

Inductive outcome (A : Type) : Type :=
| Return (a : A)
| Throw (e : string)
| OutOfFuel.

Arguments Return {A} a.
Arguments Throw {A} e.
Arguments OutOfFuel {A}.

Definition bind {A B : Type} (c : outcome A) (k : A -> outcome B)
  : outcome B :=
  match c with
  | Return a => k a
  | Throw e => Throw e
  | OutOfFuel => OutOfFuel
  end.

Notation "x <- c ;; k" := (bind c (fun x => k))
  (at level 61, c at next level, right associativity).

(** the call raised *)
Definition raises {A : Type} (c : outcome A) : bool :=
  match c with Throw _ => true | _ => false end.

(** the call returned *)
Definition returns {A : Type} (c : outcome A) : bool :=
  match c with Return _ => true | _ => false end.

(** ** Seeded generator (xorshift128plus) *)

(** the two words the returned closure keeps *)
Record rng_state : Type := mkRng { s0 : Z; s1 : Z }.

(** the loop over the seed: both accumulators are below 2^32, so the
    products and sums are exact in binary64 *)
Fixpoint seed_fold (codes : list Z) (st : rng_state) : rng_state :=
  match codes with
  | [] => st
  | c :: rest =>
      seed_fold rest (mkRng (ToUint32 (s0 st * 31 + c))
                            (ToUint32 (s1 st * 37 + c)))
  end.

Definition xorshift128plus_codes (codes : list Z) : rng_state :=
  let st := seed_fold codes (mkRng 0 0) in
  mkRng (if s0 st =? 0 then 1 else s0 st)
        (if s1 st =? 0 then 1 else s1 st).

(** the state of the closure [xorshift128plus(seed)] returns *)
Definition xorshift128plus (seed : string) : rng_state :=
  xorshift128plus_codes (charCodes seed).

(** one call of the closure: the value returned and the state left *)
Definition rng (st : rng_state) : Z * rng_state :=
  let x := s0 st in
  let y := s1 st in
  let x := js_xor x (js_shl x 23) in
  let x := js_xor x (js_ushr x 17) in
  let x := js_xor x y in
  let x := js_xor x (js_ushr y 26) in
  (ToUint32 (y + x), mkRng y x).

(** the first [n] values of the closure *)
Fixpoint rng_values (n : nat) (st : rng_state) : list Z :=
  match n with
  | O => []
  | S n' => let (v, st') := rng st in v :: rng_values n' st'
  end.

(** The generator as section 4.1 of the specification words it, on
    unsigned 32-bit words throughout. *)
Module GeneratorSpec.

Definition init (codes : list Z) : Z * Z :=
  let (a, b) :=
    fold_left (fun (acc : Z * Z) (code : Z) =>
                 ((fst acc * 31 + code) mod 2 ^ 32,
                  (snd acc * 37 + code) mod 2 ^ 32))
              codes (0, 0) in
  (if a =? 0 then 1 else a, if b =? 0 then 1 else b).

(** output and new state *)
Definition step (st : Z * Z) : Z * (Z * Z) :=
  let x := fst st in
  let y := snd st in
  let x := Z.lxor x (Z.shiftl x 23 mod 2 ^ 32) in
  let x := Z.lxor x (Z.shiftr x 17) in
  let x := Z.lxor x y in
  let x := Z.lxor x (Z.shiftr y 26) in
  let new_s0 := y in
  let new_s1 := x in
  ((new_s0 + new_s1) mod 2 ^ 32, (new_s0, new_s1)).

Fixpoint sequence (n : nat) (st : Z * Z) : list Z :=
  match n with
  | O => []
  | S n' => fst (step st) :: sequence n' (snd (step st))
  end.

End GeneratorSpec.

(** the closure's words are those of the specification's state, read as
    unsigned 32-bit values *)
Definition rng_rel (st : rng_state) (sp : Z * Z) : Prop :=
  ToUint32 (s0 st) = fst sp /\ ToUint32 (s1 st) = snd sp
  /\ 0 <= fst sp < two32 /\ 0 <= snd sp < two32.

(** the words of the closure: [s0] is a seed accumulator or an earlier
    [s1], and [s1] is a seed accumulator or the result of [^] *)
Definition rng_bounded (st : rng_state) : Prop :=
  - 2147483648 <= s0 st < two32 /\ - 2147483648 <= s1 st < two32.

(** ** Numbers *)

(** the binary64 value of an integer *)
Definition Z2float (z : Z) : float :=
  SF2Prim (binary_normalize prec emax z 0 false).

Definition Math_PI : float := 0x1.921fb54442d18p+1%float.

(** [a > b] *)
Definition gtb (a b : float) : bool := PrimFloat.ltb b a.

(** the digits of [n], at least [f + 1] of them, with a point before the
    last [f] (steps 9 and 10 of Number.prototype.toFixed) *)
Definition fixed_digits (n : Z) (f : nat) : string :=
  let m := String_of_Z n in
  match f with
  | O => m
  | S _ =>
      let k := String.length m in
      let z := string_of_list_ascii (repeat "0"%char (f + 1 - k)) in
      let m := if (k <=? f)%nat then (z ++ m)%string else m in
      let k := String.length m in
      (String.substring 0 (k - f) m ++ "." ++ String.substring (k - f) f m)%string
  end.

(** the integer [n] with [n / 10^f] nearest to [m * 2^e], the larger of
    two such *)
Definition nearest_scaled (m e : Z) (f : nat) : Z :=
  let p := 10 ^ Z.of_nat f in
  if 0 <=? e then m * 2 ^ e * p
  else (2 * m * p + 2 ^ (- e)) / (2 * 2 ^ (- e)).

(** ** Typed arrays *)

(** [a[i]]: a read outside the array is [undefined], NaN in arithmetic *)
Definition get (a : list float) (i : Z) : float :=
  if i <? 0 then nan else nth (Z.to_nat i) a nan.

Fixpoint set_nat (a : list float) (i : nat) (v : float) : list float :=
  match a, i with
  | [], _ => []
  | _ :: rest, O => v :: rest
  | x :: rest, S i' => x :: set_nat rest i' v
  end.

(** [a[i] = v]: a write outside the array is dropped *)
Definition set (a : list float) (i : Z) (v : float) : list float :=
  if i <? 0 then a else set_nat a (Z.to_nat i) v.

(** [[a[i], a[j]] = [a[j], a[i]]] *)
Definition swap (a : list float) (i j : Z) : list float :=
  set (set a i (get a j)) j (get a i).

(** the values [lo, lo + 1, ...] below [hi] that a counting loop visits *)
Definition range (lo hi : Z) : list Z :=
  map (fun k => lo + Z.of_nat k) (seq 0 (Z.to_nat (hi - lo))).

(** ** Data model *)

Record Response : Type := mkResponse
  { response_output_hash : string;
    response_output_value : option string;
    response_index : option Z }.

Record Result : Type := mkResult
  { output_hash : string;
    output_value : option string }.

Record TaskData : Type := mkTask
  { task_id : string;
    task_type : string;
    seed : string;
    shard_size : Z;
    consensus_mode : string;
    phase : string;
    description : option string;
    candidate : option string;
    responses : option (list Response);
    n_responses : option Z;
    (** the index signature [[key: string]: unknown] *)
    other_keys : list (string * string) }.

(** [a === b] for two values that are a string or [undefined] *)
Definition strict_eq (a b : option string) : bool :=
  match a, b with
  | Some x, Some y => String.eqb x y
  | None, None => true
  | _, _ => false
  end.

Section Platform.

(** [createHash("sha256").update(data).digest("hex")] *)
Variable sha256hex : string -> string.

(** [Math.cos] and [Math.sin] *)
Variables Math_cos Math_sin : float -> float.

(** [Number::toString] at a finite value of 1e21 or more, where the
    language does not fix the last digit *)
Variable Number_toString_large : float -> string.

(** [x.toFixed(f)] for [0 <= f <= 100] *)
Definition toFixed (x : float) (f : nat) : string :=
  match Prim2SF x with
  | S754_nan => "NaN"
  | S754_infinity false => "Infinity"
  | S754_infinity true => "-Infinity"
  | S754_zero _ => fixed_digits 0 f
  | S754_finite sign m e =>
      let s := if sign then "-" else "" in
      let m := Z.pos m in
      if (0 <=? e) && (10 ^ 21 <=? m * 2 ^ e)
      then (s ++ Number_toString_large (abs x))%string
      else (s ++ fixed_digits (nearest_scaled m e f) f)%string
  end.

(** *** generateData *)

Fixpoint generateData_loop (n : nat) (st : rng_state) : list float :=
  match n with
  | O => []
  | S n' =>
      let (v, st') := rng st in
      (Z2float v / 4294967296 * 2 - 1)%float :: generateData_loop n' st'
  end.

Definition generateData (seed : string) (size : Z) : list float :=
  generateData_loop (Z.to_nat size) (xorshift128plus seed).

(** *** fft *)

(** [for (; j & bit; bit >>= 1) j ^= bit;] *)
Fixpoint bit_loop (fuel : nat) (j bit : Z) : outcome (Z * Z) :=
  if js_and j bit =? 0 then Return (j, bit)
  else match fuel with
       | O => OutOfFuel
       | S fuel' => bit_loop fuel' (js_xor j bit) (js_shr bit 1)
       end.

(** [for (let i = 1, j = 0; i < n; i++)]: the bit-reversal permutation;
    [count] is the number of iterations left *)
Fixpoint bitrev_loop (fuel count : nat) (i j n : Z) (re im : list float)
  : outcome (list float * list float) :=
  match count with
  | O => Return (re, im)
  | S count' =>
      jb <- bit_loop fuel j (js_shr n 1) ;;
      let j := js_xor (fst jb) (snd jb) in
      if i <? j
      then bitrev_loop fuel count' (i + 1) j n (swap re i j) (swap im i j)
      else bitrev_loop fuel count' (i + 1) j n re im
  end.

(** [for (let j = 0; j < len / 2; j++)]: one block of butterflies.  Every
    [len] the stage loop reaches is even, so [len / 2] is an integer. *)
Fixpoint butterfly_loop (count : nat) (i j len : Z)
    (wRe wIm curRe curIm : float) (re im : list float)
  : list float * list float :=
  match count with
  | O => (re, im)
  | S count' =>
      let uRe := get re (i + j) in
      let uIm := get im (i + j) in
      let vRe := (get re (i + j + len / 2) * curRe
                  - get im (i + j + len / 2) * curIm)%float in
      let vIm := (get re (i + j + len / 2) * curIm
                  + get im (i + j + len / 2) * curRe)%float in
      let re := set re (i + j) (uRe + vRe)%float in
      let im := set im (i + j) (uIm + vIm)%float in
      let re := set re (i + j + len / 2) (uRe - vRe)%float in
      let im := set im (i + j + len / 2) (uIm - vIm)%float in
      let tmpRe := (curRe * wRe - curIm * wIm)%float in
      let curIm := (curRe * wIm + curIm * wRe)%float in
      let curRe := tmpRe in
      butterfly_loop count' i (j + 1) len wRe wIm curRe curIm re im
  end.

(** [for (let i = 0; i < n; i += len)] *)
Fixpoint block_loop (fuel : nat) (i n len : Z) (wRe wIm : float)
    (re im : list float) : outcome (list float * list float) :=
  if i <? n
  then match fuel with
       | O => OutOfFuel
       | S fuel' =>
           let ri := butterfly_loop (Z.to_nat (len / 2)) i 0 len
                                    wRe wIm 1 0 re im in
           block_loop fuel' (i + len) n len wRe wIm (fst ri) (snd ri)
       end
  else Return (re, im).

(** [for (let len = 2; len <= n; len <<= 1)]; [budget] is the fuel of the
    loop inside *)
Fixpoint stage_loop (budget fuel : nat) (len n : Z) (re im : list float)
  : outcome (list float * list float) :=
  if len <=? n
  then match fuel with
       | O => OutOfFuel
       | S fuel' =>
           let ang := (-2 * Math_PI / Z2float len)%float in
           let wRe := Math_cos ang in
           let wIm := Math_sin ang in
           ri <- block_loop budget 0 n len wRe wIm re im ;;
           stage_loop budget fuel' (js_shl len 1) n (fst ri) (snd ri)
       end
  else Return (re, im).

(** the buffers after [fft(re, im)] *)
Definition fft (fuel : nat) (re im : list float)
  : outcome (list float * list float) :=
  let n := Z.of_nat (List.length re) in
  ri <- bitrev_loop fuel (Z.to_nat (n - 1)) 1 0 n re im ;;
  stage_loop fuel fuel 2 n (fst ri) (snd ri).

(** *** Task processors *)

(** [let n = 1; while (n < shardSize) n <<= 1;], the head of processFFT,
    processSimulation and processSignalClassify *)
Fixpoint pow2_loop (fuel : nat) (n shardSize : Z) : outcome Z :=
  if n <? shardSize
  then match fuel with
       | O => OutOfFuel
       | S fuel' => pow2_loop fuel' (js_shl n 1) shardSize
       end
  else Return n.

(** [Math.sqrt(re[i] * re[i] + im[i] * im[i])] *)
Definition magnitude (re im : list float) (i : Z) : float :=
  sqrt (get re i * get re i + get im i * get im i)%float.

(** the buffers of the three spectral kernels after their [fft] *)
Definition spectrum (fuel : nat) (seed : string) (n : Z)
  : outcome (list float * list float) :=
  let data := generateData seed n in
  let re := data in
  let im := repeat 0%float (Z.to_nat n) in
  fft fuel re im.

Definition processFFT (fuel : nat) (seed : string) (shardSize : Z)
  : outcome Result :=
  n <- pow2_loop fuel 1 shardSize ;;
  ri <- spectrum fuel seed n ;;
  let mags := map (magnitude (fst ri) (snd ri)) (range 0 n) in
  let magStr := String.concat "," (map (fun v => toFixed v 6) mags) in
  Return (mkResult (sha256hex magStr) None).

Fixpoint sha_rounds (rounds : nat) (h : string) : string :=
  match rounds with
  | O => h
  | S rounds' => sha_rounds rounds' (sha256hex h)
  end.

Definition processShaChain (seed : string) (shardSize : Z)
  : outcome Result :=
  let rounds := Z.min shardSize 10000 in
  Return (mkResult (sha_rounds (Z.to_nat rounds) seed) None).

(** [k++] on a counter that starts at 0.  The counter is a binary64:
    below 2^53 the sum [k + 1] is exact; at 2^53 the sum 2^53 + 1 lies
    half-way between 2^53 and 2^53 + 2 and rounds to the even one, 2^53,
    which leaves the counter where it is. *)
Definition js_incr (k : Z) : Z := if k <? 2 ^ 53 then k + 1 else k.

(** [for (let i = 0; i < shardSize; i++)], the loop of processMonteCarlo,
    from the counter [i] on *)
Fixpoint monteCarlo_loop (fuel : nat) (i shardSize : Z) (st : rng_state)
    (inside : Z) : outcome Z :=
  if i <? shardSize
  then match fuel with
       | O => OutOfFuel
       | S fuel' =>
           let (a, st1) := rng st in
           let x := (Z2float a / 4294967296)%float in
           let (b, st2) := rng st1 in
           let y := (Z2float b / 4294967296)%float in
           monteCarlo_loop fuel' (js_incr i) shardSize st2
             (if PrimFloat.ltb (x * x + y * y) 1 then js_incr inside
              else inside)
       end
  else Return inside.

Definition processMonteCarlo (fuel : nat) (seed : string) (shardSize : Z)
  : outcome Result :=
  inside <- monteCarlo_loop fuel 0 shardSize (xorshift128plus seed) 0 ;;
  let result :=
    toFixed (4 * Z2float inside / Z2float shardSize)%float 10 in
  Return (mkResult (sha256hex result) None).

Definition processSimulation (fuel : nat) (seed : string) (shardSize : Z)
  : outcome Result :=
  n <- pow2_loop fuel 1 shardSize ;;
  ri <- spectrum fuel seed n ;;
  let mag := magnitude (fst ri) (snd ri) in
  let sum := fold_left (fun acc i => (acc + mag i)%float) (range 0 n)
                       0%float in
  let mean := (sum / Z2float n)%float in
  let variance :=
    fold_left (fun acc i => (acc + (mag i - mean) * (mag i - mean))%float)
              (range 0 n) 0%float in
  let stddev := sqrt (variance / Z2float n) in
  let valueStr := toFixed stddev 10 in
  Return (mkResult (sha256hex valueStr) (Some valueStr)).

(** [Math.min(Math.max(2, Math.floor(Math.log2(shardSize + 1) / 4)), 5)]
    as [substring] receives it.  [Math.log2] is exact at the powers of two
    and monotone, so the floor is that of the integer logarithm; at
    [shardSize = -1] the logarithm is -Infinity and [Math.max] gives 2;
    below, it is NaN, which survives [max] and [min] and which
    [substring] takes for 0. *)
Definition prefixLen (shardSize : Z) : Z :=
  if shardSize + 1 <? 0 then 0
  else Z.min (Z.max 2 (Z.log2 (shardSize + 1) / 4)) 5.

Definition searchPrefix (seed : string) (shardSize : Z) : string :=
  let targetHash := sha256hex seed in
  substring0 targetHash (prefixLen shardSize).

(** [sha256hex(seed + ":" + nonce)] *)
Definition attempt (seed : string) (nonce : Z) : string :=
  sha256hex (seed ++ ":" ++ String_of_Z nonce)%string.

(** [for (let nonce = 0; nonce <= 500000; nonce++)] with its return
    inside; [count] iterations left; [None] when the loop runs out *)
Fixpoint search_loop (count : nat) (seed prefix : string) (nonce : Z)
  : option Result :=
  match count with
  | O => None
  | S count' =>
      let h := attempt seed nonce in
      if startsWith h prefix
      then Some (mkResult (sha256hex h) (Some h))
      else search_loop count' seed prefix (nonce + 1)
  end.

Definition processHashSearch (seed : string) (shardSize : Z)
  : outcome Result :=
  let prefix := searchPrefix seed shardSize in
  match search_loop (Z.to_nat 500001) seed prefix 0 with
  | Some r => Return r
  | None => Return (mkResult (sha256hex "NOTFOUND") (Some "NOTFOUND"))
  end.

Definition verifyCandidate (seed : string) (shardSize : Z)
    (candidate : string) : outcome Result :=
  let prefix := searchPrefix seed shardSize in
  if truthy candidate && startsWith candidate prefix
  then Return (mkResult (sha256hex candidate) (Some "valid"))
  else Return (mkResult (sha256hex ("INVALID:" ++ candidate)%string)
                        (Some "invalid")).

(** the label from the peak-to-average ratio *)
Definition classify (par : float) : string :=
  if gtb par 10 then "PERIODIC"
  else if gtb par 5 then "QUASI_PERIODIC"
  else if gtb par 2 then "STRUCTURED_NOISE"
  else "WHITE_NOISE".

(** [for (let i = 1; i < n / 2; i++)]: the pair (maxMag, sumMag) *)
Definition peak_scan (re im : list float) (n : Z) : float * float :=
  fold_left
    (fun (acc : float * float) i =>
       let mag := magnitude re im i in
       (if gtb mag (fst acc) then mag else fst acc, (snd acc + mag)%float))
    (range 1 ((n + 1) / 2)) (0%float, 0%float).

Definition processSignalClassify (fuel : nat) (seed : string)
    (shardSize : Z) : outcome Result :=
  n <- pow2_loop fuel 1 shardSize ;;
  ri <- spectrum fuel seed n ;;
  let ms := peak_scan (fst ri) (snd ri) n in
  let maxMag := fst ms in
  let sumMag := snd ms in
  let avgMag := (sumMag / (Z2float n / 2 - 1))%float in
  let par := (maxMag / avgMag)%float in
  let classification := classify par in
  Return (mkResult (sha256hex classification) (Some classification)).

(** the loop of judgeResponses over [responses] from index [i] on *)
Fixpoint judge_loop (own_value : option string) (rs : list Response)
    (i bestIdx : nat) : nat :=
  match rs with
  | [] => bestIdx
  | r :: rest =>
      if strict_eq (response_output_value r) own_value then i
      else judge_loop own_value rest (S i) bestIdx
  end.

(** reading a property of [undefined] raises *)
Definition TypeError : string := "TypeError".

Definition judgeResponses (fuel : nat) (seed : string) (shardSize : Z)
    (responses : option (list Response)) : outcome Result :=
  own <- processSignalClassify fuel seed shardSize ;;
  match responses with
  | None | Some [] => Return (mkResult (output_hash own) (Some "0"))
  | Some rs =>
      let bestIdx := judge_loop (output_value own) rs 0 0 in
      match nth_error rs bestIdx with
      | Some r =>
          Return (mkResult (response_output_hash r)
                           (Some (String_of_Z (Z.of_nat bestIdx))))
      | None => Throw TypeError
      end
  end.

(** *** The dispatcher *)

(** Each of the two guarded blocks either returns ([Some]) or is left
    without a return ([None]), and control falls to what follows. *)
Definition processTask (fuel : nat) (task : TaskData) : outcome Result :=
  let seed := seed task in
  let shard_size := shard_size task in
  let task_type := task_type task in
  let consensus_mode := consensus_mode task in
  let phase := phase task in
  let candidate := candidate task in
  let responses := responses task in
  match
    (if String.eqb consensus_mode "verify"
     then if String.eqb phase "search"
          then Some (processHashSearch seed shard_size)
          else match candidate with
               | Some c =>
                   if String.eqb phase "verify" && truthy c
                   then Some (verifyCandidate seed shard_size c)
                   else None
               | None => None
               end
     else None)
  with
  | Some r => r
  | None =>
  match
    (if String.eqb consensus_mode "vote"
     then if String.eqb phase "produce"
          then Some (processSignalClassify fuel seed shard_size)
          else match responses with
               | Some rs =>
                   if String.eqb phase "judge"
                   then Some (judgeResponses fuel seed shard_size (Some rs))
                   else None
               | None => None
               end
     else None)
  with
  | Some r => r
  | None =>
      if String.eqb consensus_mode "numeric_tolerance"
      then processSimulation fuel seed shard_size
      else if String.eqb task_type "fft" || String.eqb task_type "spectral"
      then processFFT fuel seed shard_size
      else if String.eqb task_type "monte_carlo"
      then processMonteCarlo fuel seed shard_size
      else if String.eqb task_type "sha_chain"
      then processShaChain seed shard_size
      else processShaChain seed shard_size
  end
  end.

(** *** Response judging as section 4.3 of the specification words it *)

(** the index of the first response whose output_value equals [label] *)
Fixpoint first_index (label : option string) (rs : list Response)
  : option nat :=
  match rs with
  | [] => None
  | r :: rest =>
      if strict_eq (response_output_value r) label then Some 0%nat
      else option_map S (first_index label rest)
  end.

(** the chosen index: the first match, index 0 when none match *)
Definition chosen_index (label : option string) (rs : list Response) : nat :=
  match first_index label rs with Some i => i | None => 0%nat end.

(** the Result of judging with own classification [own] *)
Definition judged (own : Result) (responses : option (list Response))
  : Result :=
  match responses with
  | None | Some [] => mkResult (output_hash own) (Some "0")
  | Some (r0 :: rest) =>
      let i := chosen_index (output_value own) (r0 :: rest) in
      mkResult (response_output_hash (nth i (r0 :: rest) r0))
               (Some (String_of_Z (Z.of_nat i)))
  end.

(** *** The dispatcher as section 4.4 of the specification words it *)

Inductive processor : Type :=
| HashSearch | CandidateVerification | SignalClassification
| ResponseJudging | Simulation | Spectral | MonteCarlo | ShaChain.

(** "present (non-empty)" *)
Definition candidate_present (t : TaskData) : bool :=
  match candidate t with Some c => truthy c | None => false end.

Definition responses_present (t : TaskData) : bool :=
  match responses t with Some _ => true | None => false end.

(** the nine rules, in their order *)
Definition rules : list ((TaskData -> bool) * processor) :=
  [ (fun t => String.eqb (consensus_mode t) "verify"
              && String.eqb (phase t) "search", HashSearch);
    (fun t => String.eqb (consensus_mode t) "verify"
              && String.eqb (phase t) "verify"
              && candidate_present t, CandidateVerification);
    (fun t => String.eqb (consensus_mode t) "vote"
              && String.eqb (phase t) "produce", SignalClassification);
    (fun t => String.eqb (consensus_mode t) "vote"
              && String.eqb (phase t) "judge"
              && responses_present t, ResponseJudging);
    (fun t => String.eqb (consensus_mode t) "numeric_tolerance", Simulation);
    (fun t => String.eqb (task_type t) "fft"
              || String.eqb (task_type t) "spectral", Spectral);
    (fun t => String.eqb (task_type t) "monte_carlo", MonteCarlo);
    (fun t => String.eqb (task_type t) "sha_chain", ShaChain);
    (fun _ => true, ShaChain) ].

(** first matching rule wins *)
Fixpoint first_match (rs : list ((TaskData -> bool) * processor))
    (t : TaskData) : option processor :=
  match rs with
  | [] => None
  | (cond, p) :: rest => if cond t then Some p else first_match rest t
  end.

(** the processor applied to the Task's own fields *)
Definition run (fuel : nat) (p : processor) (t : TaskData)
  : outcome Result :=
  match p with
  | HashSearch => processHashSearch (seed t) (shard_size t)
  | CandidateVerification =>
      verifyCandidate (seed t) (shard_size t)
        (match candidate t with Some c => c | None => "" end)
  | SignalClassification => processSignalClassify fuel (seed t) (shard_size t)
  | ResponseJudging => judgeResponses fuel (seed t) (shard_size t) (responses t)
  | Simulation => processSimulation fuel (seed t) (shard_size t)
  | Spectral => processFFT fuel (seed t) (shard_size t)
  | MonteCarlo => processMonteCarlo fuel (seed t) (shard_size t)
  | ShaChain => processShaChain (seed t) (shard_size t)
  end.

End Platform.

(** ** A reference platform

    One implementation the language admits: [Math.cos] and [Math.sin] by
    their Taylor series, and for [Number::toString] the shortest digits
    that read back as the value, the closest of them.  With the FIPS
    180-4 digest it runs the kernels on concrete inputs. *)

Module Reference.

Fixpoint series (k : nat) (x2 term : float) (n : Z) (acc : float) : float :=
  match k with
  | O => acc
  | S k' =>
      let term' := (- term * x2 / Z2float ((n + 1) * (n + 2)))%float in
      series k' x2 term' (n + 2) (acc + term')%float
  end.

Definition cos (x : float) : float :=
  series 20 (x * x)%float 1%float 0 1%float.

Definition sin (x : float) : float :=
  series 20 (x * x)%float x 1 x.

(** the digits of [s], a point after the first, and the exponent [c] *)
Definition exponent_form (s c : Z) : string :=
  match String_of_Z s with
  | String a EmptyString => String a ("e+" ++ String_of_Z c)
  | String a b => String a ("." ++ b ++ "e+" ++ String_of_Z c)
  | EmptyString => ""
  end%string.

(** the least number [k] of digits with a [k]-digit [s] such that
    [s * 10^(n - k)] rounds to [x], for the integer [X] that [x] holds *)
Fixpoint shortest (fuel : nat) (k : Z) (x : float) (X n : Z) : string :=
  match fuel with
  | O => exponent_form X (n - 1)
  | S fuel' =>
      let scale := 10 ^ (n - k) in
      let lo := X / scale in
      let hi := lo + 1 in
      let ok (s : Z) := PrimFloat.eqb (Z2float (s * scale)) x in
      let pick (s : Z) :=
        if s =? 10 ^ k then exponent_form 1 n else exponent_form s (n - 1) in
      let dlo := X - lo * scale in
      let dhi := hi * scale - X in
      if ok lo && ok hi
      then if dlo <? dhi then pick lo
           else if dhi <? dlo then pick hi
           else if Z.even lo then pick lo else pick hi
      else if ok lo then pick lo
      else if ok hi then pick hi
      else shortest fuel' (k + 1) x X n
  end.

Definition Number_toString_large (x : float) : string :=
  match Prim2SF x with
  | S754_finite _ m e =>
      let X := Z.pos m * 2 ^ e in
      shortest 17 1 x X (Z.of_nat (String.length (String_of_Z X)))
  | _ => ""
  end.

End Reference.

(** A second implementation the language admits as well: cosine and
    sine that follow the reference at negative arguments and return 2
    everywhere else. *)

Module Variant.

Definition cos (x : float) : float :=
  if PrimFloat.ltb x 0 then Reference.cos x else 2%float.

Definition sin (x : float) : float :=
  if PrimFloat.ltb x 0 then Reference.sin x else 2%float.

End Variant.

(** *** The round trip of section 8 of the specification *)

(** Modelled from the spec: the inverse transform of the round-trip
    test, "conjugate + per-element divide by n".  The repository has a
    forward transform only; the inverse is the usual one built on it:
    conjugate, [fft], conjugate again, divide every entry by the
    length. *)
Definition inverse_fft (Math_cos Math_sin : float -> float) (fuel : nat)
    (re im : list float) : outcome (list float * list float) :=
  let n := Z2float (Z.of_nat (List.length re)) in
  ri <- fft Math_cos Math_sin fuel re (map PrimFloat.opp im) ;;
  Return (map (fun x => (x / n)%float) (fst ri),
          map (fun x => (- x / n)%float) (snd ri)).

(** "within 1e-9 absolute tolerance", entry by entry *)
Definition within_tolerance (xs ys : list float) : bool :=
  (List.length xs =? List.length ys)%nat
  && forallb (fun p => PrimFloat.leb (abs (fst p - snd p))
                                     (1 / 1000000000)%float)
             (combine xs ys).

(** forward, inverse, and the comparison with the input *)
Definition round_trip_close (Math_cos Math_sin : float -> float)
    (fuel : nat) (re im : list float) : outcome bool :=
  fwd <- fft Math_cos Math_sin fuel re im ;;
  back <- inverse_fft Math_cos Math_sin fuel (fst fwd) (snd fwd) ;;
  Return (within_tolerance (fst back) re && within_tolerance (snd back) im).

(** the round-trip property for buffers of the five lengths: enough fuel
    gives the answer, and the answer is yes *)
Definition round_trip_holds (Math_cos Math_sin : float -> float) : Prop :=
  forall (re im : list float),
    In (List.length re) [1; 2; 4; 16; 1024]%nat ->
    List.length im = List.length re ->
    forall fuel : nat,
      (600 <= fuel)%nat ->
      round_trip_close Math_cos Math_sin fuel re im = Return true.

(** [(-2 * Math.PI) / len], the angle at which a stage of [fft] asks for
    the cosine and the sine *)
Definition twiddle_angle (len : Z) : float :=
  (-2 * Math_PI / Z2float len)%float.

(** the values [n] takes once 2^30 is still below [shardSize]: the shift
    wraps to -2^31 and then to 0, where it stays *)
Definition pow2_orbit : list Z :=
  map (fun k => 2 ^ Z.of_nat k) (seq 0 31) ++ [-2147483648; 0].

(** a Task with only the fields the dispatcher reads filled in *)
Definition task_of (id type seed : string) (size : Z) (mode phase : string)
  : TaskData :=
  mkTask id type seed size mode phase None None None None [].

(** the kernels on the reference platform *)
Definition reference_run (fuel : nat) (t : TaskData) : outcome Result :=
  processTask SHA256.sha256hex Reference.cos Reference.sin
              Reference.Number_toString_large fuel t.

(** ** Further notions for the properties of the kernels *)

(** the state of the closure after [n] calls *)
Fixpoint rng_state_after (n : nat) (st : rng_state) : rng_state :=
  match n with
  | O => st
  | S n' => rng_state_after n' (snd (rng st))
  end.

(** the points inside the quarter disc among those of [count] iterations
    of the loop of processMonteCarlo, added to [inside] *)
Fixpoint inside_count (count : nat) (st : rng_state) (inside : Z) : Z :=
  match count with
  | O => inside
  | S count' =>
      let (a, st1) := rng st in
      let x := (Z2float a / 4294967296)%float in
      let (b, st2) := rng st1 in
      let y := (Z2float b / 4294967296)%float in
      inside_count count' st2
        (if PrimFloat.ltb (x * x + y * y) 1 then inside + 1 else inside)
  end.

(** the sample generateData stores for the value [v] of the closure *)
Definition sample (v : Z) : float :=
  (Z2float v / 4294967296 * 2 - 1)%float.

(** a character of a lowercase hex digest *)
Definition is_hex_digit (c : ascii) : bool :=
  existsb (Ascii.eqb c) (list_ascii_of_string "0123456789abcdef").

Fixpoint hex_string (s : string) : bool :=
  match s with
  | EmptyString => true
  | String c rest => is_hex_digit c && hex_string rest
  end.

(** a digest: 64 characters, all of them lowercase hex digits *)
Definition digest_shaped (h : string) : Prop :=
  String.length h = 64%nat /\ hex_string h = true.


(** the [m]-bit number whose bits are the bits of [x], lowest first, read
    from the highest place down: the index the first loop of [fft] moves
    entry [x] to *)
Fixpoint bit_reverse (m : nat) (x : Z) : Z :=
  match m with
  | O => 0
  | S m' => (x mod 2) * 2 ^ Z.of_nat m' + bit_reverse m' (x / 2)
  end.

(** the state of a buffer before iteration [i] of that loop, [src] being
    the buffer at its start: the entries of an index whose pair has its
    smaller member below [i] are exchanged *)
Definition reversed_below (m : nat) (src : list float) (i : Z)
    (a : list float) : Prop :=
  List.length a = List.length src
  /\ forall k,
      0 <= k < 2 ^ Z.of_nat m ->
      get a k = if Z.min k (bit_reverse m k) <? i
                then get src (bit_reverse m k)
                else get src k.

(** the largest shard_size at which the loops of a processor still end,
    for the processors that have one: those that start from the transform
    shift 32-bit lengths ([n <<= 1], [len <<= 1]), the loop of Monte Carlo
    counts on a binary64; the loops of the other three have constant
    bounds *)
Definition size_limit (p : processor) : option Z :=
  match p with
  | SignalClassification | ResponseJudging | Simulation | Spectral =>
      Some (2 ^ 29)
  | MonteCarlo => Some (2 ^ 53)
  | HashSearch | CandidateVerification | ShaChain => None
  end.

(** the four labels of [processSignalClassify] *)
Definition labels : list string :=
  ["PERIODIC"; "QUASI_PERIODIC"; "STRUCTURED_NOISE"; "WHITE_NOISE"].

(** * Properties *)

(** ** The 32-bit operators *)

Lemma two32_pow : two32 = 2 ^ 32.
Proof. reflexivity. Qed.

Lemma ToUint32_range (z : Z) : 0 <= ToUint32 z < two32.
Proof. unfold ToUint32. apply Z.mod_pos_bound. reflexivity. Qed.

Lemma ToInt32_small (z : Z) : 0 <= z < 2147483648 -> ToInt32 z = z.
Proof.
  intros H. unfold ToInt32, two32.
  rewrite Z.mod_small by lia.
  destruct (Z.ltb_spec z 2147483648); lia.
Qed.

Lemma ToUint32_ToInt32 (z : Z) : ToUint32 (ToInt32 z) = ToUint32 z.
Proof.
  unfold ToInt32, ToUint32.
  destruct (z mod two32 <? 2147483648).
  - apply Z.mod_mod. discriminate.
  - replace (z mod two32 - two32) with (z mod two32 + (-1) * two32) by ring.
    rewrite Z.mod_add by discriminate. apply Z.mod_mod. discriminate.
Qed.

Lemma ToUint32_small (z : Z) : 0 <= z < two32 -> ToUint32 z = z.
Proof. intros H. apply Z.mod_small. exact H. Qed.

Lemma ToUint32_idem (z : Z) : ToUint32 (ToUint32 z) = ToUint32 z.
Proof. apply ToUint32_small, ToUint32_range. Qed.

(** bit [i] of the unsigned word *)
Lemma ToUint32_testbit (z i : Z) :
  Z.testbit (ToUint32 z) i = (i <? 32) && Z.testbit z i.
Proof.
  unfold ToUint32. rewrite two32_pow.
  destruct (Z.ltb_spec i 32).
  - destruct (Z.ltb_spec i 0).
    + rewrite !Z.testbit_neg_r by lia. reflexivity.
    + rewrite Z.mod_pow2_bits_low by lia. reflexivity.
  - rewrite Z.mod_pow2_bits_high by lia. reflexivity.
Qed.

Lemma ToUint32_lxor (a b : Z) :
  ToUint32 (Z.lxor a b) = Z.lxor (ToUint32 a) (ToUint32 b).
Proof.
  apply Z.bits_inj'. intros i Hi.
  rewrite Z.lxor_spec, !ToUint32_testbit, Z.lxor_spec.
  destruct (i <? 32); reflexivity.
Qed.

Lemma ToUint32_add (a b : Z) :
  ToUint32 (a + b) = ToUint32 (ToUint32 a + ToUint32 b).
Proof. unfold ToUint32. apply Z.add_mod. discriminate. Qed.

Lemma ToUint32_shiftl (a k : Z) :
  0 <= k -> ToUint32 (Z.shiftl a k) = ToUint32 (Z.shiftl (ToUint32 a) k).
Proof.
  intros Hk. apply Z.bits_inj'. intros i Hi.
  rewrite !ToUint32_testbit.
  destruct (Z.ltb_spec i 32); [|reflexivity].
  rewrite !Z.shiftl_spec by lia.
  rewrite ToUint32_testbit.
  destruct (Z.ltb_spec (i - k) 32); [reflexivity|lia].
Qed.

Lemma js_xor_unsigned (a b : Z) :
  ToUint32 (js_xor a b) = Z.lxor (ToUint32 a) (ToUint32 b).
Proof.
  unfold js_xor. rewrite ToUint32_lxor, !ToUint32_ToInt32. reflexivity.
Qed.

Lemma js_shl_unsigned (a k : Z) :
  0 <= k < 32 ->
  ToUint32 (js_shl a k) = Z.shiftl (ToUint32 a) k mod 2 ^ 32.
Proof.
  intros Hk. unfold js_shl.
  rewrite ToUint32_ToInt32, Z.mod_small by lia.
  rewrite ToUint32_shiftl, ToUint32_ToInt32 by lia.
  reflexivity.
Qed.

Lemma js_ushr_unsigned (a k : Z) :
  0 <= k < 32 -> js_ushr a k = Z.shiftr (ToUint32 a) k.
Proof. intros Hk. unfold js_ushr. rewrite Z.mod_small by lia. reflexivity. Qed.

Lemma shiftr_range (z k : Z) :
  0 <= k -> 0 <= z < two32 -> 0 <= Z.shiftr z k < two32.
Proof.
  intros Hk Hz. rewrite Z.shiftr_div_pow2 by lia.
  assert (0 < 2 ^ k) by (apply Z.pow_pos_nonneg; lia).
  split.
  - apply Z.div_pos; lia.
  - apply Z.div_lt_upper_bound; nia.
Qed.

Lemma lxor_range (a b : Z) :
  0 <= a < two32 -> 0 <= b < two32 -> 0 <= Z.lxor a b < two32.
Proof.
  intros Ha Hb.
  rewrite <- (ToUint32_small a), <- (ToUint32_small b) by assumption.
  rewrite <- ToUint32_lxor. apply ToUint32_range.
Qed.

(** ** The generator *)

Lemma seed_fold_spec (codes : list Z) (st : rng_state) :
  fold_left (fun (acc : Z * Z) (code : Z) =>
               ((fst acc * 31 + code) mod 2 ^ 32,
                (snd acc * 37 + code) mod 2 ^ 32))
            codes (s0 st, s1 st)
  = (s0 (seed_fold codes st), s1 (seed_fold codes st)).
Proof.
  revert st. induction codes as [|c rest IH]; intros st; simpl.
  - reflexivity.
  - rewrite <- IH. reflexivity.
Qed.

Lemma seed_fold_range (codes : list Z) (st : rng_state) :
  0 <= s0 st < two32 -> 0 <= s1 st < two32 ->
  0 <= s0 (seed_fold codes st) < two32
  /\ 0 <= s1 (seed_fold codes st) < two32.
Proof.
  revert st. induction codes as [|c rest IH]; intros st H0 H1; simpl.
  - split; assumption.
  - apply IH; simpl; apply ToUint32_range.
Qed.

Lemma init_rel (codes : list Z) :
  rng_rel (xorshift128plus_codes codes) (GeneratorSpec.init codes).
Proof.
  unfold GeneratorSpec.init, xorshift128plus_codes.
  pose proof (seed_fold_spec codes (mkRng 0 0)) as E.
  cbn [s0 s1] in E. rewrite E. clear E.
  destruct (seed_fold_range codes (mkRng 0 0)) as [H0 H1];
    [simpl; unfold two32; lia .. |].
  set (st := seed_fold codes (mkRng 0 0)) in *.
  unfold rng_rel; simpl.
  destruct (Z.eqb_spec (s0 st) 0), (Z.eqb_spec (s1 st) 0);
    rewrite ?ToUint32_small by (unfold two32 in *; lia);
    unfold two32 in *; repeat split; lia.
Qed.

Lemma step_rel (st : rng_state) (sp : Z * Z) :
  rng_rel st sp ->
  fst (rng st) = fst (GeneratorSpec.step sp)
  /\ rng_rel (snd (rng st)) (snd (GeneratorSpec.step sp)).
Proof.
  intros (E0 & E1 & R0 & R1).
  unfold rng, GeneratorSpec.step; cbn [fst snd s0 s1].
  set (x1 := js_xor (s0 st) (js_shl (s0 st) 23)).
  set (x2 := js_xor x1 (js_ushr x1 17)).
  set (x3 := js_xor x2 (s1 st)).
  set (x4 := js_xor x3 (js_ushr (s1 st) 26)).
  set (u1 := Z.lxor (fst sp) (Z.shiftl (fst sp) 23 mod 2 ^ 32)).
  set (u2 := Z.lxor u1 (Z.shiftr u1 17)).
  set (u3 := Z.lxor u2 (snd sp)).
  set (u4 := Z.lxor u3 (Z.shiftr (snd sp) 26)).
  assert (A1 : ToUint32 x1 = u1).
  { unfold x1, u1.
    rewrite js_xor_unsigned, js_shl_unsigned, E0 by lia. reflexivity. }
  assert (B1 : 0 <= u1 < two32).
  { unfold u1. apply lxor_range; [assumption|].
    rewrite <- two32_pow. apply Z.mod_pos_bound. reflexivity. }
  assert (A2 : ToUint32 x2 = u2).
  { unfold x2, u2.
    rewrite js_xor_unsigned, js_ushr_unsigned, A1 by lia.
    rewrite (ToUint32_small (Z.shiftr u1 17))
      by (apply shiftr_range; [lia|assumption]).
    reflexivity. }
  assert (B2 : 0 <= u2 < two32).
  { unfold u2. apply lxor_range; [assumption|].
    apply shiftr_range; [lia|assumption]. }
  assert (A3 : ToUint32 x3 = u3).
  { unfold x3, u3. rewrite js_xor_unsigned, A2, E1. reflexivity. }
  assert (B3 : 0 <= u3 < two32).
  { unfold u3. apply lxor_range; assumption. }
  assert (A4 : ToUint32 x4 = u4).
  { unfold x4, u4.
    rewrite js_xor_unsigned, js_ushr_unsigned, A3, E1 by lia.
    rewrite (ToUint32_small (Z.shiftr (snd sp) 26))
      by (apply shiftr_range; [lia|assumption]).
    reflexivity. }
  assert (B4 : 0 <= u4 < two32).
  { unfold u4. apply lxor_range; [assumption|].
    apply shiftr_range; [lia|assumption]. }
  split.
  - rewrite ToUint32_add, E1, A4. unfold ToUint32. rewrite two32_pow.
    reflexivity.
  - unfold rng_rel; cbn [fst snd s0 s1]. repeat split; try assumption; lia.
Qed.

Lemma rng_values_rel (n : nat) :
  forall st sp, rng_rel st sp ->
  rng_values n st = GeneratorSpec.sequence n sp.
Proof.
  induction n as [|n IH]; intros st sp R;
    cbn [rng_values GeneratorSpec.sequence].
  - reflexivity.
  - destruct (step_rel st sp R) as [Eout Rnext].
    destruct (rng st) as [v st']. cbn [fst snd] in Eout, Rnext.
    subst v. f_equal. apply IH. exact Rnext.
Qed.

(** C5. Built from a seed, the source generator starts from the two
    accumulators of the specification (the character codes folded left
    to right with the multipliers 31 and 37 modulo 2^32, a zero forced
    to 1) and each call returns the value of the specification's step:
    for every sequence of character codes the first [n] values of the
    closure are the first [n] values of the specified sequence, for
    every [n], so the same seed gives the same values again. *)
Theorem xorshift128plus_refines_spec :
  forall (codes : list Z) (n : nat),
    rng_rel (xorshift128plus_codes codes) (GeneratorSpec.init codes)
    /\ rng_values n (xorshift128plus_codes codes)
       = GeneratorSpec.sequence n (GeneratorSpec.init codes)
    /\ forall seed : string,
         rng_values n (xorshift128plus seed)
         = GeneratorSpec.sequence n (GeneratorSpec.init (charCodes seed)).
Proof.
  intros codes n. split; [apply init_rel|]. split.
  - apply rng_values_rel, init_rel.
  - intros seed. unfold xorshift128plus. apply rng_values_rel, init_rel.
Qed.

(** ** Exactness of the generator's arithmetic

    The source computes on binary64 numbers; the integers of the model
    are the same values as long as they stay below 2^53. *)

Lemma ToInt32_range (z : Z) : - 2147483648 <= ToInt32 z < 2147483648.
Proof.
  unfold ToInt32.
  pose proof (Z.mod_pos_bound z two32 eq_refl) as H. unfold two32 in *.
  destruct (Z.ltb_spec (z mod 4294967296) 2147483648); lia.
Qed.

Lemma int32_sign_word (x : Z) :
  - 2147483648 <= x < 2147483648
  <-> Z.shiftr x 31 = 0 \/ Z.shiftr x 31 = -1.
Proof.
  rewrite Z.shiftr_div_pow2 by lia. change (2 ^ 31) with 2147483648.
  split; intros H; Z.div_mod_to_equations; lia.
Qed.

Lemma js_xor_range (a b : Z) : - 2147483648 <= js_xor a b < 2147483648.
Proof.
  unfold js_xor. apply int32_sign_word. rewrite Z.shiftr_lxor.
  destruct (proj1 (int32_sign_word _) (ToInt32_range a)) as [-> | ->],
           (proj1 (int32_sign_word _) (ToInt32_range b)) as [-> | ->];
    cbn; auto.
Qed.

Lemma xorshift128plus_codes_bounded (codes : list Z) :
  rng_bounded (xorshift128plus_codes codes).
Proof.
  unfold xorshift128plus_codes, rng_bounded. cbn [s0 s1].
  destruct (seed_fold_range codes (mkRng 0 0)) as [H0 H1];
    [cbn; unfold two32; lia .. |].
  unfold two32 in *.
  destruct (s0 (seed_fold codes (mkRng 0 0)) =? 0),
           (s1 (seed_fold codes (mkRng 0 0)) =? 0); lia.
Qed.

(** every call adds two words of magnitude below 2^32 and leaves such
    words behind: [s0 + s1] is exact *)
Lemma rng_bounded_step (st : rng_state) :
  rng_bounded st ->
  rng_bounded (snd (rng st))
  /\ - 2 ^ 53 < s0 (snd (rng st)) + s1 (snd (rng st)) < 2 ^ 53
  /\ 0 <= fst (rng st) < two32.
Proof.
  intros [H0 H1]. unfold rng. cbn [fst snd s0 s1].
  set (x := js_xor _ (js_ushr (s1 st) 26)).
  assert (Hx : - 2147483648 <= x < 2147483648) by apply js_xor_range.
  unfold rng_bounded. cbn [s0 s1]. unfold two32 in *.
  change (2 ^ 53) with 9007199254740992.
  repeat split; try lia; apply ToUint32_range.
Qed.

(** the accumulators of the seed loop stay below 2^53 before [>>> 0] *)
Lemma seed_fold_exact (acc code : Z) :
  0 <= acc < two32 -> 0 <= code < 65536 ->
  0 <= acc * 31 + code < 2 ^ 53 /\ 0 <= acc * 37 + code < 2 ^ 53.
Proof.
  unfold two32. change (2 ^ 53) with 9007199254740992. lia.
Qed.

Example rng_values_abc :
  rng_values 5 (xorshift128plus "abc")
  = [822446826; 3271862035; 50554589; 3313847371; 3875821444].
Proof. reflexivity. Qed.

(** ** The FFT length *)

Lemma js_shl_pow2 (k : Z) : 0 <= k <= 29 -> js_shl (2 ^ k) 1 = 2 ^ (k + 1).
Proof.
  intros Hk. unfold js_shl.
  assert (0 < 2 ^ k <= 2 ^ 29)
    by (split; [apply Z.pow_pos_nonneg; lia | apply Z.pow_le_mono_r; lia]).
  change (1 mod 32) with 1.
  rewrite (ToInt32_small (2 ^ k)) by lia.
  rewrite Z.shiftl_mul_pow2 by lia.
  rewrite Z.pow_add_r by lia. change (2 ^ 1) with 2.
  apply ToInt32_small. lia.
Qed.

(** From [n = 2^k] the loop stops at the first power of two that is not
    below [shardSize], as long as that power is at most 2^30. *)
Lemma pow2_loop_from (shardSize : Z) (fuel : nat) :
  forall k : Z,
    0 <= k <= 30 -> 30 - k <= Z.of_nat fuel -> shardSize <= 2 ^ 30 ->
    (k = 0 \/ 2 ^ (k - 1) < shardSize) ->
    exists m : Z,
      k <= m <= 30
      /\ pow2_loop fuel (2 ^ k) shardSize = Return (2 ^ m)
      /\ shardSize <= 2 ^ m
      /\ (m = 0 \/ 2 ^ (m - 1) < shardSize).
Proof.
  induction fuel as [|fuel IH]; intros k Hk Hfuel Hmax Hlow.
  - assert (k = 30) by lia. subst k. exists 30.
    cbn [pow2_loop]. destruct (Z.ltb_spec (2 ^ 30) shardSize); [lia|].
    repeat split; lia.
  - cbn [pow2_loop]. destruct (Z.ltb_spec (2 ^ k) shardSize) as [Hlt|Hge].
    + assert (k < 30).
      { destruct (Z.lt_ge_cases k 30) as [|Hk30]; [assumption|].
        assert (2 ^ 30 <= 2 ^ k) by (apply Z.pow_le_mono_r; lia). lia. }
      rewrite js_shl_pow2 by lia.
      destruct (IH (k + 1)) as (m & Hm & Hrun & Hge & Hprev); try lia.
      { right. replace (k + 1 - 1) with k by ring. exact Hlt. }
      exists m. repeat split; try assumption; lia.
    + exists k. repeat split; try assumption; lia.
Qed.

Lemma pow2_orbit_closed :
  forallb (fun n => (n <=? 2 ^ 30)
                    && existsb (Z.eqb (js_shl n 1)) pow2_orbit)
          pow2_orbit = true.
Proof. vm_compute. reflexivity. Qed.

Lemma pow2_loop_diverges (shardSize : Z) (fuel : nat) :
  2 ^ 30 < shardSize ->
  forall n, In n pow2_orbit -> pow2_loop fuel n shardSize = OutOfFuel.
Proof.
  intros Hbig.
  induction fuel as [|fuel IH]; intros n Hn;
    pose proof pow2_orbit_closed as Hc;
    rewrite forallb_forall in Hc; specialize (Hc n Hn);
    apply andb_prop in Hc; destruct Hc as [Hle Hnext];
    apply Z.leb_le in Hle;
    cbn [pow2_loop]; destruct (Z.ltb_spec n shardSize); try lia.
  - reflexivity.
  - apply IH. apply existsb_exists in Hnext.
    destruct Hnext as (n' & Hin & Heq). apply Z.eqb_eq in Heq.
    rewrite Heq. exact Hin.
Qed.

(** whatever the fuel, a length the loop returns is the first power of
    two that is not below [shardSize] *)
Lemma pow2_loop_sound (shardSize : Z) (fuel : nat) :
  forall k n : Z,
    0 <= k <= 30 -> shardSize <= 2 ^ 30 ->
    (k = 0 \/ 2 ^ (k - 1) < shardSize) ->
    pow2_loop fuel (2 ^ k) shardSize = Return n ->
    exists m : Z,
      k <= m <= 30 /\ n = 2 ^ m /\ shardSize <= 2 ^ m
      /\ (m = 0 \/ 2 ^ (m - 1) < shardSize).
Proof.
  induction fuel as [|fuel IH]; intros k n Hk Hmax Hlow; cbn [pow2_loop];
    destruct (Z.ltb_spec (2 ^ k) shardSize) as [Hlt|Hge]; intros Hrun;
    try discriminate Hrun.
  - injection Hrun as <-. exists k. repeat split; try assumption; lia.
  - assert (k < 30).
    { destruct (Z.lt_ge_cases k 30) as [|Hk30]; [assumption|].
      assert (2 ^ 30 <= 2 ^ k) by (apply Z.pow_le_mono_r; lia). lia. }
    rewrite js_shl_pow2 in Hrun by lia.
    destruct (IH (k + 1) n) as (m & Hm & Hn & Hle & Hprev);
      try assumption; try lia.
    { right. replace (k + 1 - 1) with k by ring. exact Hlt. }
    exists m. repeat split; try assumption; lia.
  - injection Hrun as <-. exists k. repeat split; try assumption; lia.
Qed.

(** For every [shardSize] up to 2^30 the loop at the head of the
    spectral kernels returns, on 30 units of fuel or more, the smallest
    power of two that is at least [shardSize], which is 1 when
    [shardSize <= 1]; the sizes 1, 2, 3, 5, 8, 9, 8192 and 8193 give
    1, 2, 4, 8, 8, 16, 8192 and 16384. *)
Lemma pow2_loop_smallest_power_of_two :
  forall (shardSize : Z) (fuel : nat),
    shardSize <= 2 ^ 30 -> (30 <= fuel)%nat ->
    (exists m : Z,
        0 <= m
        /\ pow2_loop fuel 1 shardSize = Return (2 ^ m)
        /\ shardSize <= 2 ^ m
        /\ (forall j : Z, 0 <= j -> shardSize <= 2 ^ j -> 2 ^ m <= 2 ^ j)
        /\ (shardSize <= 1 -> 2 ^ m = 1))
    /\ map (pow2_loop fuel 1) [1; 2; 3; 5; 8; 9; 8192; 8193]
       = map Return [1; 2; 4; 8; 8; 16; 8192; 16384].
Proof.
  intros shardSize fuel Hmax Hfuel.
  assert (Hrun : forall s, s <= 2 ^ 30 ->
            exists m, 0 <= m <= 30
              /\ pow2_loop fuel 1 s = Return (2 ^ m)
              /\ s <= 2 ^ m /\ (m = 0 \/ 2 ^ (m - 1) < s)).
  { intros s Hs.
    destruct (pow2_loop_from s fuel 0) as (m & Hm & Hr & Hge & Hprev);
      try lia.
    exists m. repeat split; try assumption; lia. }
  split.
  - destruct (Hrun shardSize Hmax) as (m & Hm & Hr & Hge & Hprev).
    exists m. repeat split; try assumption; try lia.
    + intros j Hj Hsj. apply Z.pow_le_mono_r; [lia|].
      destruct Hprev as [->|Hprev]; [lia|].
      destruct (Z.le_gt_cases m j) as [|Hjm]; [assumption|].
      assert (2 ^ j <= 2 ^ (m - 1)) by (apply Z.pow_le_mono_r; lia). lia.
    + intros H1. destruct Hprev as [->|Hprev]; [reflexivity|].
      destruct (Z.eq_dec m 0) as [->|Hm0]; [reflexivity|].
      assert (H0 : 2 ^ 0 <= 2 ^ (m - 1)) by (apply Z.pow_le_mono_r; lia).
      change (2 ^ 0) with 1 in H0. lia.
  - assert (Hval : forall s n m, s <= 2 ^ 30 -> n = 2 ^ m -> 0 <= m ->
              s <= n -> (m = 0 \/ 2 ^ (m - 1) < s) ->
              pow2_loop fuel 1 s = Return n).
    { intros s n m Hs -> Hm0 Hsn Hlow.
      destruct (Hrun s Hs) as (m' & Hm' & Hr & Hge & Hprev).
      rewrite Hr. do 2 f_equal.
      destruct (Z.lt_trichotomy m m') as [Hlt|[->|Hgt]]; [|reflexivity|].
      - destruct Hprev as [->|Hprev]; [lia|].
        assert (2 ^ m <= 2 ^ (m' - 1)) by (apply Z.pow_le_mono_r; lia). lia.
      - destruct Hlow as [->|Hlow]; [lia|].
        assert (2 ^ m' <= 2 ^ (m - 1)) by (apply Z.pow_le_mono_r; lia). lia. }
    cbn [map].
    rewrite (Hval 1 1 0), (Hval 2 2 1), (Hval 3 4 2), (Hval 5 8 3),
            (Hval 8 8 3), (Hval 9 16 4), (Hval 8192 8192 13),
            (Hval 8193 16384 14);
      try reflexivity; try (cbn; lia).
Qed.

(** at 2^30 + 1 the shift wraps before [n] reaches the size, and no
    length is ever produced *)
Example pow2_loop_above_2p30_never_returns :
  ~ exists (fuel : nat) (n : Z), pow2_loop fuel 1 1073741825 = Return n.
Proof.
  intros (fuel & n & H).
  rewrite (pow2_loop_diverges 1073741825 fuel) in H; [discriminate| |].
  - vm_compute. reflexivity.
  - vm_compute. left. reflexivity.
Qed.

(** ** The digest-based processors *)

Lemma sha256hex_length (s : string) :
  String.length (SHA256.sha256hex s) = 64%nat.
Proof. reflexivity. Qed.

Section HashProcessors.

Variable sha256hex : string -> string.

(** C3, as amended. With [shardSize = 0] the SHA chain applies no round
    and returns the seed itself as output_hash; the digest of the seed is
    what one round, [shardSize = 1], returns. *)
Theorem sha_chain_zero_rounds :
  forall seed : string,
    processShaChain sha256hex seed 0 = Return (mkResult seed None)
    /\ processShaChain sha256hex seed 1
       = Return (mkResult (sha256hex seed) None).
Proof. intros seed. split; reflexivity. Qed.

Lemma search_loop_spec (seed prefix : string) (count : nat) :
  forall start : Z,
    match search_loop sha256hex count seed prefix start with
    | Some r =>
        exists k : nat,
          (k < count)%nat
          /\ startsWith (attempt sha256hex seed (start + Z.of_nat k)) prefix = true
          /\ r = mkResult (sha256hex (attempt sha256hex seed (start + Z.of_nat k)))
                          (Some (attempt sha256hex seed (start + Z.of_nat k)))
          /\ forall j : nat, (j < k)%nat ->
               startsWith (attempt sha256hex seed (start + Z.of_nat j)) prefix = false
    | None =>
        forall j : nat, (j < count)%nat ->
          startsWith (attempt sha256hex seed (start + Z.of_nat j)) prefix = false
    end.
Proof.
  induction count as [|count IH]; intros start; cbn [search_loop].
  - intros j Hj. inversion Hj.
  - cbv zeta.
    destruct (startsWith (attempt sha256hex seed start) prefix) eqn:Hhit.
    + exists 0%nat. rewrite Z.add_0_r. repeat split.
      * apply Nat.lt_0_succ.
      * exact Hhit.
      * intros j Hj. inversion Hj.
    + specialize (IH (start + 1)).
      destruct (search_loop sha256hex count seed prefix (start + 1)) as [r|].
      * destruct IH as (k & Hk & Hs & Hr & Hbefore).
        exists (S k).
        replace (start + Z.of_nat (S k)) with (start + 1 + Z.of_nat k) by lia.
        repeat split; try assumption.
        -- apply -> Nat.succ_lt_mono. exact Hk.
        -- intros [|j] Hj.
           ++ rewrite Z.add_0_r. exact Hhit.
           ++ replace (start + Z.of_nat (S j)) with (start + 1 + Z.of_nat j)
                by lia.
              apply Hbefore. apply Nat.succ_lt_mono. exact Hj.
      * intros [|j] Hj.
        -- rewrite Z.add_0_r. exact Hhit.
        -- replace (start + Z.of_nat (S j)) with (start + 1 + Z.of_nat j)
             by lia.
           apply IH. apply Nat.succ_lt_mono. exact Hj.
Qed.

Lemma prefixLen_clamp (shardSize : Z) :
  0 <= shardSize ->
  prefixLen shardSize = Z.max 2 (Z.min (Z.log2 (shardSize + 1) / 4) 5).
Proof.
  intros H. unfold prefixLen.
  destruct (Z.ltb_spec (shardSize + 1) 0); lia.
Qed.

(** C6. For a size that is not negative, Hash search takes the first
    clamp(floor(log2(size + 1) / 4), 2, 5) characters of hash(seed) as
    prefix; when [nonce] is the least number in 0..500000 whose digest
    hash(seed + ":" + nonce), the number written in decimal, starts with
    the prefix, it returns that digest as output_value and its hash as
    output_hash; when no number in the range has such a digest, it
    returns "NOTFOUND" and its hash. *)
Theorem hash_search_first_matching_nonce :
  forall (seed : string) (shardSize : Z),
    0 <= shardSize ->
    let target := sha256hex seed in
    let prefixLen := Z.max 2 (Z.min (Z.log2 (shardSize + 1) / 4) 5) in
    let prefix := String.substring 0 (Z.to_nat prefixLen) target in
    let digest := fun nonce : Z =>
      sha256hex (seed ++ ":" ++ NilZero.string_of_int (Z.to_int nonce))%string
    in
    (forall nonce : Z,
        0 <= nonce <= 500000 ->
        String.prefix prefix (digest nonce) = true ->
        (forall m : Z, 0 <= m < nonce ->
                       String.prefix prefix (digest m) = false) ->
        processHashSearch sha256hex seed shardSize
        = Return (mkResult (sha256hex (digest nonce)) (Some (digest nonce))))
    /\ ((forall nonce : Z,
           0 <= nonce <= 500000 ->
           String.prefix prefix (digest nonce) = false) ->
        processHashSearch sha256hex seed shardSize
        = Return (mkResult (sha256hex "NOTFOUND") (Some "NOTFOUND"))).
Proof.
  intros seed shardSize Hsize target pl prefix digest.
  assert (Hprefix : searchPrefix sha256hex seed shardSize = prefix).
  { unfold searchPrefix. rewrite prefixLen_clamp by assumption. reflexivity. }
  assert (Hdigest : forall k, attempt sha256hex seed k = digest k)
    by reflexivity.
  unfold processHashSearch. rewrite Hprefix.
  pose proof (search_loop_spec seed prefix (Z.to_nat 500001) 0) as Hloop.
  unfold startsWith in Hloop.
  split.
  - intros nonce Hrange Hhit Hfirst.
    destruct (search_loop sha256hex (Z.to_nat 500001) seed prefix 0) as [r|].
    + destruct Hloop as (k & Hk & Hs & Hr & Hbefore).
      rewrite Z.add_0_l, Hdigest in Hs, Hr.
      assert (Hkn : Z.of_nat k = nonce).
      { destruct (Z.lt_trichotomy (Z.of_nat k) nonce) as [Hlt|[Heq|Hgt]].
        - rewrite (Hfirst (Z.of_nat k)) in Hs by lia. discriminate.
        - exact Heq.
        - specialize (Hbefore (Z.to_nat nonce)).
          rewrite Z.add_0_l, Z2Nat.id, Hdigest in Hbefore by lia.
          rewrite Hbefore in Hhit by lia. discriminate. }
      rewrite Hkn in Hr. rewrite Hr. reflexivity.
    + specialize (Hloop (Z.to_nat nonce)).
      rewrite Z.add_0_l, Z2Nat.id, Hdigest in Hloop by lia.
      rewrite Hloop in Hhit by lia. discriminate.
  - intros Hnone.
    destruct (search_loop sha256hex (Z.to_nat 500001) seed prefix 0) as [r|].
    + destruct Hloop as (k & Hk & Hs & _).
      rewrite Z.add_0_l, Hdigest in Hs. rewrite Hnone in Hs by lia.
      discriminate.
    + reflexivity.
Qed.

Hypothesis sha256hex_length64 :
  forall s : string, String.length (sha256hex s) = 64%nat.

Lemma sha256hex_truthy (s : string) : truthy (sha256hex s) = true.
Proof.
  pose proof (sha256hex_length64 s) as H.
  destruct (sha256hex s); [discriminate H|reflexivity].
Qed.

(** C10. When Hash search returns an output_value [h] other than
    "NOTFOUND", Candidate verification of [h] for the same seed and size
    returns "valid" with output_hash hash(h), which is the output_hash
    Hash search returned. *)
Theorem found_candidate_verifies :
  forall (seed : string) (shardSize : Z) (r : Result) (h : string),
    processHashSearch sha256hex seed shardSize = Return r ->
    output_value r = Some h ->
    h <> "NOTFOUND" ->
    verifyCandidate sha256hex seed shardSize h
    = Return (mkResult (sha256hex h) (Some "valid"))
    /\ output_hash r = sha256hex h.
Proof.
  intros seed shardSize r h Hrun Hval Hfound.
  unfold processHashSearch in Hrun.
  pose proof (search_loop_spec seed (searchPrefix sha256hex seed shardSize)
                               (Z.to_nat 500001) 0) as Hloop.
  destruct (search_loop sha256hex (Z.to_nat 500001) seed
                        (searchPrefix sha256hex seed shardSize) 0) as [r'|].
  - destruct Hloop as (k & _ & Hs & Hr & _).
    rewrite Z.add_0_l in Hs, Hr.
    injection Hrun as <-. subst r'. cbn [output_value output_hash] in *.
    injection Hval as <-.
    unfold verifyCandidate, attempt in *. cbv zeta.
    rewrite sha256hex_truthy, Hs. split; reflexivity.
  - injection Hrun as <-. cbn [output_value] in Hval.
    injection Hval as <-. contradiction Hfound. reflexivity.
Qed.

End HashProcessors.

(** C3, as stated, fails for the seed "abc": at size 0 the output_hash is
    "abc", not its digest. *)
Lemma sha_chain_zero_is_not_hash_of_seed :
  exists r : Result,
    processShaChain SHA256.sha256hex "abc" 0 = Return r
    /\ output_hash r <> SHA256.sha256hex "abc".
Proof.
  exists (mkResult "abc" None). split; [reflexivity|].
  vm_compute. discriminate.
Qed.

Example hash_search_f_16 :
  processHashSearch SHA256.sha256hex "f" 16
  = Return
      (mkResult
         "0b69a5ac0137586ed0420abb111712c34c4d96518aed715815b8e3a9a8d0a75b"
         (Some
         "25b369ffd909712a1fbf6a826cae9e60217ae495803160cbdb63100a1a56240c")).
Proof. vm_compute. reflexivity. Qed.

Lemma hash_search_first_matching_nonce_witness :
  0 <= 16
  /\ processHashSearch SHA256.sha256hex "f" 16
     = Return (mkResult
                 (SHA256.sha256hex (SHA256.sha256hex "f:9"))
                 (Some (SHA256.sha256hex "f:9"))).
Proof.
  assert (H : 0 <= 16) by discriminate.
  split; [exact H|].
  destruct (hash_search_first_matching_nonce SHA256.sha256hex "f" 16 H)
    as [Hfound _].
  apply (Hfound 9).
  - split; discriminate.
  - vm_compute. reflexivity.
  - intros m Hm.
    assert (Hcases : m = 0 \/ m = 1 \/ m = 2 \/ m = 3 \/ m = 4 \/ m = 5
                     \/ m = 6 \/ m = 7 \/ m = 8) by lia.
    repeat (destruct Hcases as [->|Hcases]; [vm_compute; reflexivity|]).
    subst m. vm_compute. reflexivity.
Defined.

Lemma found_candidate_verifies_witness :
  let h :=
    "25b369ffd909712a1fbf6a826cae9e60217ae495803160cbdb63100a1a56240c" in
  let r :=
    mkResult
      "0b69a5ac0137586ed0420abb111712c34c4d96518aed715815b8e3a9a8d0a75b"
      (Some h) in
  processHashSearch SHA256.sha256hex "f" 16 = Return r
  /\ output_value r = Some h
  /\ h <> "NOTFOUND"
  /\ verifyCandidate SHA256.sha256hex "f" 16 h
     = Return (mkResult (SHA256.sha256hex h) (Some "valid"))
  /\ output_hash r = SHA256.sha256hex h.
Proof.
  intros h r.
  assert (Hrun : processHashSearch SHA256.sha256hex "f" 16 = Return r)
    by (vm_compute; reflexivity).
  assert (Hval : output_value r = Some h) by reflexivity.
  assert (Hfound : h <> "NOTFOUND") by discriminate.
  repeat (split; [assumption|]).
  exact (found_candidate_verifies SHA256.sha256hex sha256hex_length
                                  "f" 16 r h Hrun Hval Hfound).
Defined.

(** ** Outcomes of the loops *)

Lemma bind_raises {A B : Type} (c : outcome A) (k : A -> outcome B) :
  raises c = false -> (forall a, raises (k a) = false) ->
  raises (bind c k) = false.
Proof. destruct c; cbn; intros H Hk; [apply Hk | discriminate H | reflexivity]. Qed.

Lemma bind_returns {A B : Type} (c : outcome A) (k : A -> outcome B) :
  returns c = true -> (forall a, returns (k a) = true) ->
  returns (bind c k) = true.
Proof. destruct c; cbn; intros H Hk; [apply Hk | discriminate H ..]. Qed.

Lemma pow2_loop_raises (fuel : nat) :
  forall n shardSize, raises (pow2_loop fuel n shardSize) = false.
Proof.
  induction fuel as [|fuel IH]; intros n shardSize; cbn [pow2_loop];
    destruct (n <? shardSize); try reflexivity. apply IH.
Qed.

Lemma bit_loop_raises (fuel : nat) :
  forall j bit, raises (bit_loop fuel j bit) = false.
Proof.
  induction fuel as [|fuel IH]; intros j bit; cbn [bit_loop];
    destruct (js_and j bit =? 0); try reflexivity. apply IH.
Qed.

Lemma bitrev_loop_raises (fuel count : nat) :
  forall i j n re im, raises (bitrev_loop fuel count i j n re im) = false.
Proof.
  induction count as [|count IH]; intros i j n re im; cbn [bitrev_loop].
  - reflexivity.
  - apply bind_raises; [apply bit_loop_raises|].
    intros jb. destruct (i <? js_xor (fst jb) (snd jb)); apply IH.
Qed.

Lemma block_loop_raises (fuel : nat) :
  forall i n len wRe wIm re im,
    raises (block_loop fuel i n len wRe wIm re im) = false.
Proof.
  induction fuel as [|fuel IH]; intros i n len wRe wIm re im;
    cbn [block_loop]; destruct (i <? n); try reflexivity. apply IH.
Qed.

(** the bit loop ends once [bit] has been halved to 0 *)
Lemma bit_loop_returns (fuel : nat) :
  forall j bit,
    0 <= bit < 2 ^ Z.of_nat fuel -> bit < 2147483648 ->
    returns (bit_loop fuel j bit) = true.
Proof.
  induction fuel as [|fuel IH]; intros j bit Hbit H31; cbn [bit_loop].
  - change (2 ^ Z.of_nat 0) with 1 in Hbit.
    assert (bit = 0) by lia. subst bit.
    unfold js_and. change (ToInt32 0) with 0. rewrite Z.land_0_r.
    reflexivity.
  - destruct (js_and j bit =? 0); [reflexivity|].
    assert (Hhalf : js_shr bit 1 = bit / 2).
    { unfold js_shr. change (1 mod 32) with 1.
      rewrite ToInt32_small by lia.
      rewrite Z.shiftr_div_pow2 by lia. reflexivity. }
    rewrite Hhalf. apply IH.
    + rewrite Nat2Z.inj_succ, Z.pow_succ_r in Hbit by lia.
      split; [apply Z.div_pos; lia | apply Z.div_lt_upper_bound; lia].
    + assert (bit / 2 <= bit) by (apply Z.div_le_upper_bound; lia). lia.
Qed.

Lemma bitrev_loop_returns (fuel count : nat) (n : Z) :
  0 <= n <= 2 ^ 30 -> (30 <= fuel)%nat ->
  forall i j re im, returns (bitrev_loop fuel count i j n re im) = true.
Proof.
  intros Hn Hfuel.
  assert (Hbit : forall j, returns (bit_loop fuel j (js_shr n 1)) = true).
  { intros j.
    assert (Hhalf : js_shr n 1 = n / 2).
    { unfold js_shr. change (1 mod 32) with 1.
      rewrite ToInt32_small by lia.
      rewrite Z.shiftr_div_pow2 by lia. reflexivity. }
    rewrite Hhalf.
    assert (0 <= n / 2 < 2 ^ 30)
      by (split; [apply Z.div_pos; lia | apply Z.div_lt_upper_bound; lia]).
    assert (2 ^ 30 <= 2 ^ Z.of_nat fuel) by (apply Z.pow_le_mono_r; lia).
    apply bit_loop_returns; lia. }
  induction count as [|count IH]; intros i j re im; cbn [bitrev_loop].
  - reflexivity.
  - apply bind_returns; [apply Hbit|].
    intros jb. destruct (i <? js_xor (fst jb) (snd jb)); apply IH.
Qed.

(** the block loop ends: [i] grows by [len >= 2] up to [n] *)
Lemma block_loop_returns (fuel : nat) (n len : Z) :
  2 <= len ->
  forall i wRe wIm re im,
    n - i <= 2 * Z.of_nat fuel ->
    returns (block_loop fuel i n len wRe wIm re im) = true.
Proof.
  intros Hlen.
  induction fuel as [|fuel IH]; intros i wRe wIm re im Hfuel;
    cbn [block_loop]; destruct (Z.ltb_spec i n); try reflexivity.
  - lia.
  - apply IH. lia.
Qed.

Lemma generateData_loop_length (n : nat) :
  forall st, List.length (generateData_loop n st) = n.
Proof.
  induction n as [|n IH]; intros st; cbn [generateData_loop].
  - reflexivity.
  - destruct (rng st) as [v st']. cbn [List.length]. rewrite IH. reflexivity.
Qed.

Section PlatformProperties.

Variable sha256hex : string -> string.
Variables Math_cos Math_sin : float -> float.
Variable Number_toString_large : float -> string.

Lemma stage_loop_raises (budget fuel : nat) :
  forall len n re im,
    raises (stage_loop Math_cos Math_sin budget fuel len n re im) = false.
Proof.
  induction fuel as [|fuel IH]; intros len n re im; cbn [stage_loop];
    destruct (len <=? n); try reflexivity.
  apply bind_raises; [apply block_loop_raises|]. intros ri. apply IH.
Qed.

Lemma fft_raises (fuel : nat) (re im : list float) :
  raises (fft Math_cos Math_sin fuel re im) = false.
Proof.
  unfold fft. apply bind_raises; [apply bitrev_loop_raises|].
  intros ri. apply stage_loop_raises.
Qed.

(** the stage loop ends: [len] doubles from 2^a until it passes [n],
    without wrapping while [n <= 2^29] *)
Lemma stage_loop_returns (budget : nat) (n : Z) :
  n <= 2 ^ 29 -> n <= 2 * Z.of_nat budget ->
  forall (fuel : nat) (a : Z) re im,
    1 <= a -> 30 - a <= Z.of_nat fuel ->
    returns (stage_loop Math_cos Math_sin budget fuel (2 ^ a) n re im) = true.
Proof.
  intros Hn Hbudget.
  induction fuel as [|fuel IH]; intros a re im Ha Hfuel; cbn [stage_loop];
    destruct (Z.leb_spec (2 ^ a) n) as [Hle|Hgt]; try reflexivity.
  - assert (2 ^ 30 <= 2 ^ a) by (apply Z.pow_le_mono_r; lia). lia.
  - assert (a <= 29).
    { destruct (Z.le_gt_cases a 29) as [|Hbig]; [assumption|].
      assert (2 ^ 30 <= 2 ^ a) by (apply Z.pow_le_mono_r; lia). lia. }
    assert (2 ^ 1 <= 2 ^ a) by (apply Z.pow_le_mono_r; lia).
    apply bind_returns.
    + apply block_loop_returns; lia.
    + intros ri. rewrite js_shl_pow2 by lia. apply IH; lia.
Qed.

Lemma fft_returns (fuel : nat) (re im : list float) :
  Z.of_nat (List.length re) <= 2 ^ 29 ->
  Z.of_nat (List.length re) <= 2 * Z.of_nat fuel ->
  (30 <= fuel)%nat ->
  returns (fft Math_cos Math_sin fuel re im) = true.
Proof.
  intros Hn Hbudget Hfuel. unfold fft. apply bind_returns.
  - apply bitrev_loop_returns; lia.
  - intros ri. apply (stage_loop_returns fuel _ Hn Hbudget fuel 1); lia.
Qed.

Lemma spectrum_raises (fuel : nat) (seed : string) (n : Z) :
  raises (spectrum Math_cos Math_sin fuel seed n) = false.
Proof. apply fft_raises. Qed.

Lemma spectrum_returns (fuel : nat) (seed : string) (n : Z) :
  n <= 2 ^ 29 -> n <= 2 * Z.of_nat fuel -> (30 <= fuel)%nat ->
  returns (spectrum Math_cos Math_sin fuel seed n) = true.
Proof.
  intros Hn Hbudget Hfuel. unfold spectrum, generateData.
  apply fft_returns; rewrite ?generateData_loop_length; lia.
Qed.

(** the length the spectral kernels compute, for sizes up to 2^29 *)
Lemma pow2_loop_returns (fuel : nat) (shardSize : Z) :
  shardSize <= 2 ^ 29 -> (30 <= fuel)%nat ->
  exists n : Z,
    pow2_loop fuel 1 shardSize = Return n
    /\ n <= 2 ^ 29 /\ n <= Z.max 1 (2 * shardSize).
Proof.
  intros Hmax Hfuel.
  destruct (pow2_loop_from shardSize fuel 0) as (m & Hm & Hrun & Hge & Hprev);
    try lia.
  exists (2 ^ m). split; [exact Hrun|].
  destruct Hprev as [->|Hprev]; [cbn; lia|].
  destruct (Z.eq_dec m 0) as [->|Hm0]; [cbn; lia|].
  assert (Hdouble : 2 ^ m = 2 * 2 ^ (m - 1)).
  { rewrite <- Z.pow_succ_r by lia. f_equal. lia. }
  split; [|lia].
  destruct (Z.le_gt_cases m 29) as [Hsmall|Hbig].
  - apply Z.pow_le_mono_r; lia.
  - assert (2 ^ 29 <= 2 ^ (m - 1)) by (apply Z.pow_le_mono_r; lia). lia.
Qed.

(** *** Above 2^29

    For a length of 2^30 the last stage shifts [len] to -2^31, which is
    still [<= n]; the block loop then steps [i] downwards for ever. *)

Lemma block_loop_negative_len (fuel : nat) (n len : Z) :
  len < 0 ->
  forall i wRe wIm re im,
    i < n -> block_loop fuel i n len wRe wIm re im = OutOfFuel.
Proof.
  intros Hlen.
  induction fuel as [|fuel IH]; intros i wRe wIm re im Hi;
    cbn [block_loop]; destruct (Z.ltb_spec i n); try lia.
  - reflexivity.
  - apply IH. lia.
Qed.

Lemma bind_not_returns {A B : Type} (c : outcome A) (k : A -> outcome B) :
  (forall a, returns (k a) = false) -> returns (bind c k) = false.
Proof. intros Hk. destruct c; cbn; [apply Hk | reflexivity ..]. Qed.

Lemma stage_loop_wraps (budget fuel : nat) :
  forall (a : Z) re im,
    1 <= a <= 30 ->
    returns (stage_loop Math_cos Math_sin budget fuel (2 ^ a) (2 ^ 30) re im)
    = false.
Proof.
  induction fuel as [|fuel IH]; intros a re im Ha; cbn [stage_loop];
    destruct (Z.leb_spec (2 ^ a) (2 ^ 30)) as [Hle|Hgt]; try reflexivity.
  - assert (2 ^ a <= 2 ^ 30) by (apply Z.pow_le_mono_r; lia). lia.
  - apply bind_not_returns. intros ri.
    destruct (Z.eq_dec a 30) as [->|Hne].
    + change (js_shl (2 ^ 30) 1) with (- 2147483648).
      destruct fuel as [|fuel']; cbn [stage_loop];
        change (- 2147483648 <=? 2 ^ 30) with true; cbv iota;
        [reflexivity|].
      rewrite block_loop_negative_len by (cbn; lia). reflexivity.
    + rewrite js_shl_pow2 by lia. apply IH. lia.
  - assert (2 ^ a <= 2 ^ 30) by (apply Z.pow_le_mono_r; lia). lia.
Qed.

Lemma fft_diverges_at_2p30 (fuel : nat) (re im : list float) :
  Z.of_nat (List.length re) = 2 ^ 30 ->
  returns (fft Math_cos Math_sin fuel re im) = false.
Proof.
  intros Hn. unfold fft. rewrite Hn. apply bind_not_returns. intros ri.
  apply (stage_loop_wraps fuel fuel 1). lia.
Qed.

Lemma spectrum_diverges_at_2p30 (fuel : nat) (seed : string) :
  returns (spectrum Math_cos Math_sin fuel seed (2 ^ 30)) = false.
Proof.
  unfold spectrum, generateData. apply fft_diverges_at_2p30.
  rewrite generateData_loop_length. apply Z2Nat.id. lia.
Qed.

(** the spectral kernels do not return for a size above 2^29: the
    length is 2^30, or is never found *)
Lemma spectral_head_diverges {A : Type} (fuel : nat) (seed : string)
    (shardSize : Z) (k : Z -> list float * list float -> outcome A) :
  2 ^ 29 < shardSize ->
  returns (n <- pow2_loop fuel 1 shardSize ;;
           ri <- spectrum Math_cos Math_sin fuel seed n ;;
           k n ri) = false.
Proof.
  intros Hbig.
  destruct (Z.le_gt_cases shardSize (2 ^ 30)) as [Hle|Hgt].
  - destruct (pow2_loop fuel 1 shardSize) as [n| |] eqn:Hrun;
      cbn [bind]; try reflexivity.
    destruct (pow2_loop_sound shardSize fuel 0 n) as (m & Hm & -> & Hge & _);
      try assumption; try lia.
    assert (m = 30).
    { destruct (Z.le_gt_cases m 29) as [Hsmall|]; [|lia].
      assert (2 ^ m <= 2 ^ 29) by (apply Z.pow_le_mono_r; lia). lia. }
    subst m.
    destruct (spectrum Math_cos Math_sin fuel seed (2 ^ 30)) as [ri| |] eqn:Hs;
      cbn [bind]; try reflexivity.
    pose proof (spectrum_diverges_at_2p30 fuel seed) as Hd.
    rewrite Hs in Hd. discriminate Hd.
  - rewrite (pow2_loop_diverges shardSize fuel Hgt 1); [reflexivity|].
    vm_compute. left. reflexivity.
Qed.

(** C4 on the code.  For a size up to 2^30 each of the three spectral
    kernels hands [fft] the generated data and a zero buffer, both of
    length [n], where [n] is the smallest power of two that is at least
    the size (1 for a size of 1 or less); the sizes 1, 2, 3, 5, 8, 9,
    8192 and 8193 give 1, 2, 4, 8, 8, 16, 8192 and 16384.  For a size
    above 2^30, 2^30 + 1 among them, the 32-bit shift [n <<= 1] wraps to
    -2^31 and then to 0: the loop [while (n < shardSize)] never ends, no
    length is produced and no kernel returns, whatever the fuel. *)
Theorem fft_length_smallest_power_of_two :
  (forall (shardSize : Z) (fuel : nat) (seed : string),
      shardSize <= 2 ^ 30 -> (30 <= fuel)%nat ->
      exists m : Z,
        0 <= m
        /\ shardSize <= 2 ^ m
        /\ (forall j : Z, 0 <= j -> shardSize <= 2 ^ j -> 2 ^ m <= 2 ^ j)
        /\ (shardSize <= 1 -> 2 ^ m = 1)
        /\ pow2_loop fuel 1 shardSize = Return (2 ^ m)
        /\ let n := 2 ^ m in
           let re := generateData seed n in
           let im := repeat 0%float (Z.to_nat n) in
           Z.of_nat (List.length re) = n
           /\ Z.of_nat (List.length im) = n
           /\ processFFT sha256hex Math_cos Math_sin Number_toString_large
                         fuel seed shardSize
              = (ri <- fft Math_cos Math_sin fuel re im ;;
                 let mags := map (magnitude (fst ri) (snd ri)) (range 0 n) in
                 let magStr :=
                   String.concat
                     "," (map (fun v => toFixed Number_toString_large v 6)
                              mags) in
                 Return (mkResult (sha256hex magStr) None))
           /\ processSimulation sha256hex Math_cos Math_sin
                                Number_toString_large fuel seed shardSize
              = (ri <- fft Math_cos Math_sin fuel re im ;;
                 let mag := magnitude (fst ri) (snd ri) in
                 let sum :=
                   fold_left (fun acc i => (acc + mag i)%float) (range 0 n)
                             0%float in
                 let mean := (sum / Z2float n)%float in
                 let variance :=
                   fold_left
                     (fun acc i =>
                        (acc + (mag i - mean) * (mag i - mean))%float)
                     (range 0 n) 0%float in
                 let stddev := sqrt (variance / Z2float n) in
                 let valueStr := toFixed Number_toString_large stddev 10 in
                 Return (mkResult (sha256hex valueStr) (Some valueStr)))
           /\ processSignalClassify sha256hex Math_cos Math_sin fuel seed
                                    shardSize
              = (ri <- fft Math_cos Math_sin fuel re im ;;
                 let ms := peak_scan (fst ri) (snd ri) n in
                 let avgMag := (snd ms / (Z2float n / 2 - 1))%float in
                 let classification := classify (fst ms / avgMag)%float in
                 Return (mkResult (sha256hex classification)
                                  (Some classification))))
  /\ (forall fuel : nat,
        (30 <= fuel)%nat ->
        map (pow2_loop fuel 1) [1; 2; 3; 5; 8; 9; 8192; 8193]
        = map Return [1; 2; 4; 8; 8; 16; 8192; 16384])
  /\ (forall (shardSize : Z) (fuel : nat) (seed : string),
        2 ^ 30 < shardSize ->
        pow2_loop fuel 1 shardSize = OutOfFuel
        /\ processFFT sha256hex Math_cos Math_sin Number_toString_large
                      fuel seed shardSize = OutOfFuel
        /\ processSimulation sha256hex Math_cos Math_sin
                             Number_toString_large fuel seed shardSize
           = OutOfFuel
        /\ processSignalClassify sha256hex Math_cos Math_sin fuel seed
                                 shardSize = OutOfFuel)
  /\ (forall (fuel : nat) (seed : string),
        pow2_loop fuel 1 1073741825 = OutOfFuel
        /\ processFFT sha256hex Math_cos Math_sin Number_toString_large
                      fuel seed 1073741825 = OutOfFuel).
Proof.
  split; [|split; [|split]].
  - intros size fuel sd Hmax Hfuel.
    destruct (pow2_loop_smallest_power_of_two size fuel Hmax Hfuel)
      as [(m & Hm & Hrun & Hge & Hleast & Hone) _].
    exists m. do 4 (split; [assumption|]). split; [exact Hrun|].
    cbv zeta. split; [|split].
    + unfold generateData. rewrite generateData_loop_length.
      apply Z2Nat.id. apply Z.pow_nonneg. lia.
    + rewrite repeat_length. apply Z2Nat.id. apply Z.pow_nonneg. lia.
    + unfold processFFT, processSimulation, processSignalClassify.
      rewrite Hrun. cbn [bind]. unfold spectrum.
      split; [|split]; reflexivity.
  - intros fuel Hfuel.
    destruct (pow2_loop_smallest_power_of_two 1 fuel) as [_ Hlist];
      [vm_compute; discriminate|exact Hfuel|exact Hlist].
  - intros size fuel sd Hbig.
    assert (Hloop : pow2_loop fuel 1 size = OutOfFuel).
    { apply pow2_loop_diverges; [exact Hbig|]. vm_compute. left. reflexivity. }
    unfold processFFT, processSimulation, processSignalClassify.
    rewrite Hloop. repeat split; reflexivity.
  - intros fuel sd.
    assert (Hloop : pow2_loop fuel 1 1073741825 = OutOfFuel).
    { apply pow2_loop_diverges; [vm_compute; reflexivity|].
      vm_compute. left. reflexivity. }
    unfold processFFT. rewrite Hloop. split; reflexivity.
Qed.

Local Notation "'classify_at'" :=
  (processSignalClassify sha256hex Math_cos Math_sin).

Lemma returns_inv {A : Type} (c : outcome A) :
  returns c = true -> exists a, c = Return a.
Proof. destruct c; try discriminate. intros _. eexists. reflexivity. Qed.

Lemma processSignalClassify_returns (fuel : nat) (seed : string)
    (shardSize : Z) :
  shardSize <= 2 ^ 29 -> (30 <= fuel)%nat -> shardSize <= Z.of_nat fuel ->
  exists label : string,
    classify_at fuel seed shardSize
    = Return (mkResult (sha256hex label) (Some label)).
Proof.
  intros Hmax Hfuel Hsize. unfold processSignalClassify.
  destruct (pow2_loop_returns fuel shardSize Hmax Hfuel) as (n & -> & Hn & Hn2).
  cbn [bind].
  destruct (returns_inv _ (spectrum_returns fuel seed n Hn ltac:(lia) Hfuel))
    as (ri & ->).
  cbn [bind]. eexists. reflexivity.
Qed.

Lemma processSignalClassify_raises (fuel : nat) (seed : string)
    (shardSize : Z) :
  raises (classify_at fuel seed shardSize) = false.
Proof.
  unfold processSignalClassify.
  apply bind_raises; [apply pow2_loop_raises|]. intros n.
  apply bind_raises; [apply spectrum_raises|]. reflexivity.
Qed.

Lemma processFFT_outcome (fuel : nat) (seed : string) (shardSize : Z) :
  raises (processFFT sha256hex Math_cos Math_sin Number_toString_large
                     fuel seed shardSize) = false
  /\ (shardSize <= 2 ^ 29 -> (30 <= fuel)%nat ->
      shardSize <= Z.of_nat fuel ->
      returns (processFFT sha256hex Math_cos Math_sin Number_toString_large
                          fuel seed shardSize) = true).
Proof.
  unfold processFFT. split.
  - apply bind_raises; [apply pow2_loop_raises|]. intros n.
    apply bind_raises; [apply spectrum_raises|]. reflexivity.
  - intros Hmax Hfuel Hsize.
    destruct (pow2_loop_returns fuel shardSize Hmax Hfuel)
      as (n & -> & Hn & Hn2).
    cbn [bind]. apply bind_returns; [|reflexivity].
    apply spectrum_returns; lia.
Qed.

Lemma processSimulation_outcome (fuel : nat) (seed : string)
    (shardSize : Z) :
  raises (processSimulation sha256hex Math_cos Math_sin
            Number_toString_large fuel seed shardSize) = false
  /\ (shardSize <= 2 ^ 29 -> (30 <= fuel)%nat ->
      shardSize <= Z.of_nat fuel ->
      returns (processSimulation sha256hex Math_cos Math_sin
                 Number_toString_large fuel seed shardSize) = true).
Proof.
  unfold processSimulation. split.
  - apply bind_raises; [apply pow2_loop_raises|]. intros n.
    apply bind_raises; [apply spectrum_raises|]. reflexivity.
  - intros Hmax Hfuel Hsize.
    destruct (pow2_loop_returns fuel shardSize Hmax Hfuel)
      as (n & -> & Hn & Hn2).
    cbn [bind]. apply bind_returns; [|reflexivity].
    apply spectrum_returns; lia.
Qed.

(** ** Response judging *)

Lemma strict_eq_true (a b : option string) :
  strict_eq a b = true <-> a = b.
Proof.
  destruct a as [x|], b as [y|]; cbn [strict_eq];
    try (split; [discriminate|discriminate]); [|split; reflexivity].
  rewrite String.eqb_eq. split; [intros ->; reflexivity|intros [= ->]; reflexivity].
Qed.

(** the loop of the source finds the index [first_index] names *)
Lemma judge_loop_first_index (label : option string) (rs : list Response) :
  forall i bestIdx : nat,
    judge_loop label rs i bestIdx
    = match first_index label rs with
      | Some k => (i + k)%nat
      | None => bestIdx
      end.
Proof.
  induction rs as [|r rest IH]; intros i bestIdx;
    cbn [judge_loop first_index].
  - reflexivity.
  - destruct (strict_eq (response_output_value r) label).
    + symmetry. apply Nat.add_0_r.
    + rewrite IH. destruct (first_index label rest); cbn [option_map]; lia.
Qed.

Lemma first_index_Some (label : option string) (rs : list Response) :
  forall i : nat,
    first_index label rs = Some i ->
    exists r : Response,
      nth_error rs i = Some r
      /\ response_output_value r = label
      /\ forall (j : nat) (r' : Response),
           (j < i)%nat -> nth_error rs j = Some r' ->
           response_output_value r' <> label.
Proof.
  induction rs as [|r rest IH]; intros i Hi; cbn [first_index] in Hi.
  - discriminate Hi.
  - destruct (strict_eq (response_output_value r) label) eqn:Hr.
    + injection Hi as <-. exists r. apply strict_eq_true in Hr.
      repeat split; try assumption. intros j r' Hj. inversion Hj.
    + destruct (first_index label rest) as [k|]; [|discriminate Hi].
      injection Hi as <-.
      destruct (IH k eq_refl) as (r0 & Hnth & Hval & Hbefore).
      exists r0. repeat split; try assumption.
      intros [|j] r' Hj Hnth'; cbn [nth_error] in Hnth'.
      * injection Hnth' as <-. intros Heq. apply strict_eq_true in Heq.
        rewrite Heq in Hr. discriminate Hr.
      * apply (Hbefore j); [lia|assumption].
Qed.

Lemma first_index_None (label : option string) (rs : list Response) :
  first_index label rs = None ->
  forall r : Response, In r rs -> response_output_value r <> label.
Proof.
  induction rs as [|r rest IH]; intros Hnone r' Hin;
    cbn [first_index] in Hnone.
  - destruct Hin.
  - destruct (strict_eq (response_output_value r) label) eqn:Hr;
      [discriminate Hnone|].
    destruct Hin as [<-|Hin].
    + intros Heq. apply strict_eq_true in Heq. rewrite Heq in Hr.
      discriminate Hr.
    + apply IH; [|assumption].
      destruct (first_index label rest); [discriminate Hnone|reflexivity].
Qed.

Lemma judgeResponses_judged (fuel : nat) (seed : string) (shardSize : Z)
    (responses : option (list Response)) :
  judgeResponses sha256hex Math_cos Math_sin fuel seed shardSize responses
  = (own <- classify_at fuel seed shardSize ;;
     Return (judged own responses)).
Proof.
  unfold judgeResponses.
  destruct (classify_at fuel seed shardSize) as [own| |]; cbn [bind];
    try reflexivity.
  destruct responses as [[|r0 rest]|]; try reflexivity.
  cbn [judged]. rewrite judge_loop_first_index. unfold chosen_index.
  destruct (first_index (output_value own) (r0 :: rest)) as [k|] eqn:Hk.
  - destruct (first_index_Some _ _ _ Hk) as (r & Hnth & _).
    cbn [Nat.add]. rewrite Hnth.
    rewrite (nth_error_nth _ _ r0 Hnth). reflexivity.
  - reflexivity.
Qed.

Lemma processSignalClassify_diverges (fuel : nat) (seed : string)
    (shardSize : Z) :
  2 ^ 29 < shardSize -> returns (classify_at fuel seed shardSize) = false.
Proof.
  intros Hbig. unfold processSignalClassify.
  apply (spectral_head_diverges fuel seed shardSize (fun n ri => _) Hbig).
Qed.

(** C7 on the code.  For every seed, every size up to 2^29 and every
    list of responses, Response judging recomputes the own Signal
    classification, which returns a label, and returns: without
    responses, the own output_hash with output_value "0"; otherwise the
    output_hash of the response at the chosen index and that index in
    decimal, where the chosen index is that of the first response whose
    output_value is the own label (no earlier response has it), and 0
    when no response has it.  With own label "PERIODIC" and responses
    valued "WHITE_NOISE" then "PERIODIC", the loop selects index 1.
    For a size above 2^29, 2^30 + 1 among them, the 32-bit shifts of
    the own classification wrap and judging returns nothing, whatever
    the responses and the fuel. *)
Theorem judge_selects_first_matching_response :
  (forall (fuel : nat) (seed : string) (shardSize : Z)
          (responses : option (list Response)),
      shardSize <= 2 ^ 29 -> (30 <= fuel)%nat ->
      shardSize <= Z.of_nat fuel ->
      exists label : string,
        classify_at fuel seed shardSize
        = Return (mkResult (sha256hex label) (Some label))
        /\ match responses with
           | None | Some [] =>
               judgeResponses sha256hex Math_cos Math_sin fuel seed
                              shardSize responses
               = Return (mkResult (sha256hex label) (Some "0"))
           | Some rs =>
               exists (i : nat) (r : Response),
                 nth_error rs i = Some r
                 /\ judgeResponses sha256hex Math_cos Math_sin fuel seed
                                   shardSize responses
                    = Return (mkResult (response_output_hash r)
                                       (Some (String_of_Z (Z.of_nat i))))
                 /\ ((response_output_value r = Some label
                      /\ forall (j : nat) (r' : Response),
                           (j < i)%nat -> nth_error rs j = Some r' ->
                           response_output_value r' <> Some label)
                     \/ (i = 0%nat
                         /\ forall r' : Response,
                              In r' rs ->
                              response_output_value r' <> Some label))
           end)
  /\ (forall (h1 h2 : string) (i1 i2 : option Z),
        judge_loop (Some "PERIODIC")
                   [mkResponse h1 (Some "WHITE_NOISE") i1;
                    mkResponse h2 (Some "PERIODIC") i2] 0 0
        = 1%nat)
  /\ (forall (fuel : nat) (seed : string) (shardSize : Z)
             (responses : option (list Response)),
        2 ^ 29 < shardSize ->
        judgeResponses sha256hex Math_cos Math_sin fuel seed shardSize
                       responses = OutOfFuel)
  /\ (forall (fuel : nat) (seed : string)
             (responses : option (list Response)),
        judgeResponses sha256hex Math_cos Math_sin fuel seed 1073741825
                       responses = OutOfFuel).
Proof.
  assert (Hhang : forall (fuel : nat) (sd : string) (size : Z)
                         (responses : option (list Response)),
             2 ^ 29 < size ->
             judgeResponses sha256hex Math_cos Math_sin fuel sd size
                            responses = OutOfFuel).
  { intros fuel sd size responses Hbig. rewrite judgeResponses_judged.
    pose proof (processSignalClassify_diverges fuel sd size Hbig) as Hd.
    pose proof (processSignalClassify_raises fuel sd size) as Hr.
    destruct (classify_at fuel sd size);
      [discriminate Hd|discriminate Hr|reflexivity]. }
  split; [|split; [intros; reflexivity|split; [exact Hhang|]]].
  - intros fuel sd size responses Hmax Hfuel Hsize.
    destruct (processSignalClassify_returns fuel sd size Hmax Hfuel Hsize)
      as (label & Hown).
    exists label. split; [exact Hown|].
    rewrite judgeResponses_judged, Hown. cbn [bind].
    destruct responses as [[|r0 rest]|]; try reflexivity.
    cbn [judged output_value]. unfold chosen_index.
    destruct (first_index (Some label) (r0 :: rest)) as [k|] eqn:Hk.
    + destruct (first_index_Some _ _ _ Hk) as (r & Hnth & Hval & Hbefore).
      exists k, r. rewrite (nth_error_nth _ _ r0 Hnth).
      repeat split; try assumption. left. split; assumption.
    + exists 0%nat, r0. repeat split. right. split; [reflexivity|].
      apply first_index_None. exact Hk.
  - intros fuel sd responses. apply Hhang. vm_compute. reflexivity.
Qed.

(** ** Monte Carlo *)

(** within 2^53 the loop runs [shardSize - i] more iterations *)
Lemma inside_count_bounds (count : nat) :
  forall st inside,
    inside <= inside_count count st inside <= inside + Z.of_nat count.
Proof.
  induction count as [|count IH]; intros st inside; cbn [inside_count].
  - lia.
  - destruct (rng st) as [a st1]. destruct (rng st1) as [b st2].
    match goal with |- context [if ?c then _ else _] => destruct c end;
      match goal with |- context [inside_count count ?s ?i] =>
        specialize (IH s i) end; lia.
Qed.

Lemma monteCarlo_loop_counts (fuel : nat) :
  forall (i shardSize : Z) (st : rng_state) (inside : Z),
    0 <= inside <= i -> shardSize <= 2 ^ 53 ->
    shardSize - i <= Z.of_nat fuel ->
    monteCarlo_loop fuel i shardSize st inside
    = Return (inside_count (Z.to_nat (shardSize - i)) st inside).
Proof.
  induction fuel as [|fuel IH]; intros i shardSize st inside Hin Hmax Hfuel;
    cbn [monteCarlo_loop]; destruct (Z.ltb_spec i shardSize) as [Hlt|Hge];
    try (replace (Z.to_nat (shardSize - i)) with 0%nat by lia; reflexivity);
    [lia|].
  replace (Z.to_nat (shardSize - i))
    with (S (Z.to_nat (shardSize - (i + 1)))) by lia.
  cbn [inside_count].
  destruct (rng st) as [a st1]. destruct (rng st1) as [b st2].
  unfold js_incr.
  destruct (Z.ltb_spec i (2 ^ 53)); [|lia].
  destruct (Z.ltb_spec inside (2 ^ 53)); [|lia].
  match goal with |- context [if ?c then _ else _] => destruct c end;
    apply IH; lia.
Qed.

(** above 2^53 the counter stops at 2^53 and the loop does not end *)
Lemma monteCarlo_loop_diverges (fuel : nat) :
  forall (i shardSize : Z) (st : rng_state) (inside : Z),
    i <= 2 ^ 53 -> 2 ^ 53 < shardSize ->
    monteCarlo_loop fuel i shardSize st inside = OutOfFuel.
Proof.
  induction fuel as [|fuel IH]; intros i shardSize st inside Hi Hbig;
    cbn [monteCarlo_loop]; destruct (Z.ltb_spec i shardSize); try lia;
    [reflexivity|].
  destruct (rng st) as [a st1]. destruct (rng st1) as [b st2].
  apply IH; [|exact Hbig].
  unfold js_incr. destruct (Z.ltb_spec i (2 ^ 53)); lia.
Qed.

Lemma monteCarlo_loop_raises (fuel : nat) :
  forall (i shardSize : Z) (st : rng_state) (inside : Z),
    raises (monteCarlo_loop fuel i shardSize st inside) = false.
Proof.
  induction fuel as [|fuel IH]; intros i shardSize st inside;
    cbn [monteCarlo_loop]; destruct (i <? shardSize); try reflexivity.
  destruct (rng st) as [a st1]. destruct (rng st1) as [b st2]. apply IH.
Qed.

Lemma processMonteCarlo_counts (fuel : nat) (seed : string) (shardSize : Z) :
  shardSize <= 2 ^ 53 -> shardSize <= Z.of_nat fuel ->
  processMonteCarlo sha256hex Number_toString_large fuel seed shardSize
  = Return
      (mkResult
         (sha256hex
            (toFixed Number_toString_large
               (4 * Z2float (inside_count (Z.to_nat shardSize)
                                          (xorshift128plus seed) 0)
                / Z2float shardSize)%float 10))
         None).
Proof.
  intros Hmax Hfuel. unfold processMonteCarlo.
  rewrite monteCarlo_loop_counts by lia.
  rewrite Z.sub_0_r. reflexivity.
Qed.

Lemma processMonteCarlo_diverges (fuel : nat) (seed : string)
    (shardSize : Z) :
  2 ^ 53 < shardSize ->
  processMonteCarlo sha256hex Number_toString_large fuel seed shardSize
  = OutOfFuel.
Proof.
  intros Hbig. unfold processMonteCarlo.
  rewrite monteCarlo_loop_diverges by (try exact Hbig; lia). reflexivity.
Qed.

Lemma processMonteCarlo_raises (fuel : nat) (seed : string) (shardSize : Z) :
  raises (processMonteCarlo sha256hex Number_toString_large fuel seed
                            shardSize) = false.
Proof.
  unfold processMonteCarlo.
  apply bind_raises; [apply monteCarlo_loop_raises|]. reflexivity.
Qed.

(** C2 on the code: at size 0 the processor does not fail.  The loop
    body never runs, the estimate 4 * 0 / 0 is NaN, [toFixed] renders it
    as "NaN", and the digest of that text is returned as a Result; at
    every size up to 2^53 the processor returns a Result with a hash
    alone, and at no size does it raise. *)
Theorem monte_carlo_zero_size_hashes_NaN :
  forall seed : string,
    (forall fuel : nat,
        processMonteCarlo sha256hex Number_toString_large fuel seed 0
        = Return (mkResult (sha256hex "NaN") None))
    /\ (forall (fuel : nat) (shardSize : Z),
          shardSize <= 2 ^ 53 -> shardSize <= Z.of_nat fuel ->
          exists h : string,
            processMonteCarlo sha256hex Number_toString_large fuel seed
                              shardSize
            = Return (mkResult h None))
    /\ (forall (fuel : nat) (shardSize : Z),
          raises (processMonteCarlo sha256hex Number_toString_large fuel
                                    seed shardSize) = false).
Proof.
  intros seed. split; [|split].
  - intros fuel. unfold processMonteCarlo. destruct fuel; reflexivity.
  - intros fuel shardSize Hmax Hfuel. eexists.
    apply processMonteCarlo_counts; assumption.
  - intros fuel shardSize. apply processMonteCarlo_raises.
Qed.

(** ** The dispatcher *)

Local Notation "'dispatch'" :=
  (processTask sha256hex Math_cos Math_sin Number_toString_large).
Local Notation "'run_rule'" :=
  (run sha256hex Math_cos Math_sin Number_toString_large).

Lemma processTask_first_match (fuel : nat) (t : TaskData) :
  exists p : processor,
    first_match rules t = Some p /\ dispatch fuel t = run_rule fuel p t.
Proof.
  destruct t as [id ty sd ss mode ph descr cand resp nr other].
  unfold processTask, rules, first_match, run, candidate_present,
    responses_present.
  cbn [task_type seed shard_size consensus_mode phase candidate responses].
  destruct (String.eqb mode "verify"), (String.eqb ph "search"),
    (String.eqb ph "verify"), cand as [[|c0 c]|]; cbn [andb orb truthy];
    try (eexists; split; reflexivity);
    destruct (String.eqb mode "vote"), (String.eqb ph "produce"),
      (String.eqb ph "judge"), resp as [rs|]; cbn [andb orb];
    try (eexists; split; reflexivity);
    destruct (String.eqb mode "numeric_tolerance"); cbn [andb orb];
    try (eexists; split; reflexivity);
    destruct (String.eqb ty "fft"), (String.eqb ty "spectral");
    cbn [andb orb]; try (eexists; split; reflexivity);
    destruct (String.eqb ty "monte_carlo");
    try (eexists; split; reflexivity);
    destruct (String.eqb ty "sha_chain"); eexists; split; reflexivity.
Qed.

Lemma judgeResponses_raises (fuel : nat) (seed : string) (shardSize : Z)
    (responses : option (list Response)) :
  raises (judgeResponses sha256hex Math_cos Math_sin fuel seed shardSize
                         responses) = false.
Proof.
  rewrite judgeResponses_judged.
  apply bind_raises; [apply processSignalClassify_raises|]. reflexivity.
Qed.

Lemma judgeResponses_diverges (fuel : nat) (seed : string) (shardSize : Z)
    (responses : option (list Response)) :
  2 ^ 29 < shardSize ->
  returns (judgeResponses sha256hex Math_cos Math_sin fuel seed shardSize
                          responses) = false.
Proof.
  intros Hbig. rewrite judgeResponses_judged.
  pose proof (processSignalClassify_diverges fuel seed shardSize Hbig) as Hd.
  destruct (classify_at fuel seed shardSize); [discriminate Hd|reflexivity ..].
Qed.

Lemma run_raises (fuel : nat) (p : processor) (t : TaskData) :
  raises (run_rule fuel p t) = false.
Proof.
  destruct p; cbn [run].
  - unfold processHashSearch.
    destruct (search_loop sha256hex (Z.to_nat 500001) (seed t)
                (searchPrefix sha256hex (seed t) (shard_size t)) 0);
      reflexivity.
  - unfold verifyCandidate.
    match goal with |- context [if ?b then _ else _] => destruct b end;
      reflexivity.
  - apply processSignalClassify_raises.
  - apply judgeResponses_raises.
  - apply processSimulation_outcome.
  - apply processFFT_outcome.
  - apply processMonteCarlo_raises.
  - reflexivity.
Qed.

Lemma run_returns (fuel : nat) (p : processor) (t : TaskData) :
  shard_size t <= 2 ^ 29 -> (30 <= fuel)%nat ->
  shard_size t <= Z.of_nat fuel ->
  returns (run_rule fuel p t) = true.
Proof.
  intros Hmax Hfuel Hsize. destruct p; cbn [run].
  - unfold processHashSearch.
    destruct (search_loop sha256hex (Z.to_nat 500001) (seed t)
                (searchPrefix sha256hex (seed t) (shard_size t)) 0);
      reflexivity.
  - unfold verifyCandidate.
    match goal with |- context [if ?b then _ else _] => destruct b end;
      reflexivity.
  - destruct (processSignalClassify_returns fuel (seed t) (shard_size t))
      as (label & ->); auto.
  - rewrite judgeResponses_judged.
    destruct (processSignalClassify_returns fuel (seed t) (shard_size t))
      as (label & ->); auto.
  - apply processSimulation_outcome; assumption.
  - apply processFFT_outcome; assumption.
  - rewrite processMonteCarlo_counts by lia. reflexivity.
  - reflexivity.
Qed.

Lemma first_match_app (rs1 rs2 : list ((TaskData -> bool) * processor))
    (t : TaskData) :
  first_match (rs1 ++ rs2) t
  = match first_match rs1 t with
    | Some p => Some p
    | None => first_match rs2 t
    end.
Proof.
  induction rs1 as [|[cond p] rest IH]; cbn [first_match app].
  - reflexivity.
  - destruct (cond t); [reflexivity|exact IH].
Qed.

(** C1. For every Task the dispatcher runs the processor of the first of
    the nine rules that matches; the Task with consensus_mode "verify",
    phase "search", task_type "monte_carlo", seed "s" and shard_size 16
    goes to Hash search; no Task makes the dispatcher raise; a Task with
    consensus_mode "verify" and phase "verify" whose candidate is absent
    or empty is handled by the task_type rules that follow; a Task that
    matches none of the first eight rules is processed by SHA chain on
    its own seed and shard_size; and for sizes up to 2^29 the dispatcher
    returns a Result. *)
Theorem dispatcher_first_matching_rule :
  (forall (fuel : nat) (t : TaskData),
      exists p : processor,
        first_match rules t = Some p /\ dispatch fuel t = run_rule fuel p t)
  /\ (forall (fuel : nat) (id : string) (descr cand : option string)
             (resp : option (list Response)) (nr : option Z)
             (other : list (string * string)),
        dispatch fuel (mkTask id "monte_carlo" "s" 16 "verify" "search"
                              descr cand resp nr other)
        = processHashSearch sha256hex "s" 16)
  /\ (forall (fuel : nat) (t : TaskData), raises (dispatch fuel t) = false)
  /\ (forall (fuel : nat) (t : TaskData),
        consensus_mode t = "verify" -> phase t = "verify" ->
        candidate_present t = false ->
        first_match rules t = first_match (skipn 5 rules) t
        /\ dispatch fuel t
           = if String.eqb (task_type t) "fft"
                || String.eqb (task_type t) "spectral"
             then processFFT sha256hex Math_cos Math_sin
                             Number_toString_large fuel
                             (seed t) (shard_size t)
             else if String.eqb (task_type t) "monte_carlo"
             then processMonteCarlo sha256hex Number_toString_large fuel
                                    (seed t) (shard_size t)
             else processShaChain sha256hex (seed t) (shard_size t))
  /\ (forall (fuel : nat) (t : TaskData),
        first_match (firstn 8 rules) t = None ->
        dispatch fuel t = processShaChain sha256hex (seed t) (shard_size t))
  /\ (forall (fuel : nat) (t : TaskData),
        shard_size t <= 2 ^ 29 -> (30 <= fuel)%nat ->
        shard_size t <= Z.of_nat fuel ->
        returns (dispatch fuel t) = true).
Proof.
  split; [exact processTask_first_match|].
  split; [intros; reflexivity|].
  split.
  { intros fuel t.
    destruct (processTask_first_match fuel t) as (p & _ & ->).
    apply run_raises. }
  split.
  { intros fuel [id ty sd ss mode ph descr cand resp nr other].
    unfold candidate_present.
    cbn [consensus_mode phase candidate task_type seed shard_size].
    intros -> -> Hcand.
    unfold processTask, rules, first_match, skipn.
    cbn [task_type seed shard_size consensus_mode phase candidate responses].
    unfold candidate_present. cbn [candidate].
    change (String.eqb "verify" "verify") with true.
    change (String.eqb "verify" "search") with false.
    change (String.eqb "verify" "vote") with false.
    change (String.eqb "verify" "numeric_tolerance") with false.
    cbn [andb].
    destruct cand as [c|]; [cbn [andb]; rewrite Hcand|];
      destruct (String.eqb ty "fft"), (String.eqb ty "spectral");
      cbn [orb]; try (split; reflexivity);
      destruct (String.eqb ty "monte_carlo"); try (split; reflexivity);
      destruct (String.eqb ty "sha_chain"); split; reflexivity. }
  split.
  { intros fuel t Hnone.
    destruct (processTask_first_match fuel t) as (p & Hp & ->).
    change rules with (firstn 8 rules ++ [(fun _ : TaskData => true, ShaChain)])
      in Hp.
    rewrite first_match_app, Hnone in Hp. cbn [first_match] in Hp.
    injection Hp as <-. reflexivity. }
  intros fuel t Hmax Hfuel Hsize.
  destruct (processTask_first_match fuel t) as (p & _ & ->).
  apply run_returns; assumption.
Qed.

(** the dispatcher reads seven fields of the Task *)
Lemma processTask_reads_seven_fields (fuel : nat) (t1 t2 : TaskData) :
  seed t1 = seed t2 ->
  shard_size t1 = shard_size t2 ->
  task_type t1 = task_type t2 ->
  consensus_mode t1 = consensus_mode t2 ->
  phase t1 = phase t2 ->
  candidate t1 = candidate t2 ->
  responses t1 = responses t2 ->
  dispatch fuel t1 = dispatch fuel t2.
Proof.
  intros Hseed Hsize Htype Hmode Hphase Hcand Hresp.
  unfold processTask.
  rewrite Hseed, Hsize, Htype, Hmode, Hphase, Hcand, Hresp. reflexivity.
Qed.

Lemma outcome_OutOfFuel {A : Type} (c : outcome A) :
  returns c = false -> raises c = false -> c = OutOfFuel.
Proof. destruct c; intros Hr Hx; try discriminate; reflexivity. Qed.

End PlatformProperties.

(** ** One Task on two machines *)

Section AcrossPlatforms.

Variable sha256hex : string -> string.
Variable Number_toString_large : float -> string.
Variables cos1 sin1 cos2 sin2 : float -> float.

Hypothesis twiddles_agree :
  forall a : Z,
    1 <= a <= 29 ->
    cos1 (twiddle_angle (2 ^ a)) = cos2 (twiddle_angle (2 ^ a))
    /\ sin1 (twiddle_angle (2 ^ a)) = sin2 (twiddle_angle (2 ^ a)).

Lemma stage_loop_platform (budget : nat) (n : Z) :
  n <= 2 ^ 29 ->
  forall (fuel : nat) (a : Z) (re im : list float),
    1 <= a ->
    stage_loop cos1 sin1 budget fuel (2 ^ a) n re im
    = stage_loop cos2 sin2 budget fuel (2 ^ a) n re im.
Proof.
  intros Hn.
  induction fuel as [|fuel IH]; intros a re im Ha; cbn [stage_loop];
    destruct (Z.leb_spec (2 ^ a) n) as [Hle|Hgt]; try reflexivity.
  assert (Ha29 : a <= 29).
  { destruct (Z.le_gt_cases a 29) as [|Hbig]; [assumption|].
    assert (2 ^ 30 <= 2 ^ a) by (apply Z.pow_le_mono_r; lia). lia. }
  cbv zeta. fold (twiddle_angle (2 ^ a)).
  destruct (twiddles_agree a ltac:(lia)) as [-> ->].
  destruct (block_loop budget 0 n (2 ^ a) (cos2 (twiddle_angle (2 ^ a)))
                       (sin2 (twiddle_angle (2 ^ a))) re im)
    as [ri| |]; cbn [bind]; try reflexivity.
  rewrite js_shl_pow2 by lia. apply IH. lia.
Qed.

Lemma spectrum_platform (fuel : nat) (seed : string) (m : Z) :
  0 <= m <= 30 ->
  spectrum cos1 sin1 fuel seed (2 ^ m) = spectrum cos2 sin2 fuel seed (2 ^ m).
Proof.
  intros Hm. destruct (Z.eq_dec m 30) as [->|Hne].
  - transitivity (@OutOfFuel (list float * list float));
      [|symmetry];
      (apply outcome_OutOfFuel;
       [apply spectrum_diverges_at_2p30 | apply spectrum_raises]).
  - unfold spectrum, fft. cbv zeta.
    assert (Hlen : Z.of_nat (List.length (generateData seed (2 ^ m)))
                   = 2 ^ m).
    { unfold generateData. rewrite generateData_loop_length.
      apply Z2Nat.id. apply Z.pow_nonneg. lia. }
    rewrite Hlen.
    match goal with
    | |- bind ?c _ = _ => destruct c as [ri| |]
    end; cbn [bind]; try reflexivity.
    change 2 with (2 ^ 1) at 1 3.
    apply (stage_loop_platform fuel (2 ^ m)); [|lia].
    apply Z.pow_le_mono_r; lia.
Qed.

(** the head the three spectral kernels share *)
Lemma spectral_head_platform {A : Type} (fuel : nat) (seed : string)
    (shardSize : Z) (k : Z -> list float * list float -> outcome A) :
  (n <- pow2_loop fuel 1 shardSize ;;
   ri <- spectrum cos1 sin1 fuel seed n ;; k n ri)
  = (n <- pow2_loop fuel 1 shardSize ;;
     ri <- spectrum cos2 sin2 fuel seed n ;; k n ri).
Proof.
  destruct (pow2_loop fuel 1 shardSize) as [n| |] eqn:Hrun; cbn [bind];
    try reflexivity.
  destruct (Z.le_gt_cases shardSize (2 ^ 30)) as [Hle|Hgt].
  - destruct (pow2_loop_sound shardSize fuel 0 n) as (m & Hm & -> & _);
      try assumption; try lia.
    rewrite spectrum_platform by lia. reflexivity.
  - rewrite (pow2_loop_diverges shardSize fuel Hgt 1) in Hrun;
      [discriminate Hrun|]. vm_compute. left. reflexivity.
Qed.

Lemma processSignalClassify_platform (fuel : nat) (seed : string)
    (shardSize : Z) :
  processSignalClassify sha256hex cos1 sin1 fuel seed shardSize
  = processSignalClassify sha256hex cos2 sin2 fuel seed shardSize.
Proof.
  unfold processSignalClassify.
  apply (spectral_head_platform fuel seed shardSize (fun n ri => _)).
Qed.

Lemma run_platform (fuel : nat) (p : processor) (t : TaskData) :
  run sha256hex cos1 sin1 Number_toString_large fuel p t
  = run sha256hex cos2 sin2 Number_toString_large fuel p t.
Proof.
  destruct p; cbn [run]; try reflexivity.
  - apply processSignalClassify_platform.
  - unfold judgeResponses. rewrite processSignalClassify_platform.
    reflexivity.
  - unfold processSimulation.
    apply (spectral_head_platform fuel (seed t) (shard_size t)
             (fun n ri => _)).
  - unfold processFFT.
    apply (spectral_head_platform fuel (seed t) (shard_size t)
             (fun n ri => _)).
Qed.


End AcrossPlatforms.

(** ** The development at the FIPS 180-4 digest *)

Example sha256_abc :
  SHA256.sha256hex "abc"
  = "ba7816bf8f01cfea414140de5dae2223b00361a396177a9cb410ff61f20015ad".
Proof. vm_compute. reflexivity. Qed.

Example sha256_empty :
  SHA256.sha256hex ""
  = "e3b0c44298fc1c149afbf4c8996fb92427ae41e4649b934ca495991b7852b855".
Proof. vm_compute. reflexivity. Qed.

Example sha256_two_blocks :
  SHA256.sha256hex
    "abcdbcdecdefdefgefghfghighijhijkijkljklmklmnlmnomnopnopq"
  = "248d6a61d20638b8e5c026930c3e6039a33ce45964ff2167f6ecedd419db06c1".
Proof. vm_compute. reflexivity. Qed.

Example monte_carlo_test_100 :
  forall large : float -> string,
    processMonteCarlo SHA256.sha256hex large 100 "test" 100
    = Return
        (mkResult
           "3b347f2aeb00694aec1f208d5b7577b55d914494c70a1817ba15c9dc8b74a6fd"
           None).
Proof. intros large. vm_compute. reflexivity. Qed.

Example reference_fft_test_16 :
  reference_run 40 (task_of "task" "fft" "test" 16 "other" "other")
  = Return
      (mkResult
         "3cf8a51783430f5a99963da3614ad6d2f32972a85fc8d774a8737803d03bb415"
         None).
Proof. vm_compute. reflexivity. Qed.

Example reference_simulation_test_16 :
  reference_run 40 (task_of "task" "fft" "test" 16 "numeric_tolerance" "other")
  = Return
      (mkResult
         "a53f9943b48319945b4255e953a436d58bf47010d4d6fbece291afb522a1addb"
         (Some "1.0591573086")).
Proof. vm_compute. reflexivity. Qed.

Example reference_judge_test_16 :
  reference_run 40
    (mkTask "task" "signal_classify" "test" 16 "vote" "judge" None None
       (Some [mkResponse "h0" (Some "PERIODIC") None;
              mkResponse "h1" (Some "WHITE_NOISE") None;
              mkResponse "h2" (Some "WHITE_NOISE") None])
       None [])
  = Return (mkResult "h1" (Some "1")).
Proof. vm_compute. reflexivity. Qed.

Lemma variant_twiddles_agree :
  forall a : Z,
    1 <= a <= 29 ->
    Reference.cos (twiddle_angle (2 ^ a)) = Variant.cos (twiddle_angle (2 ^ a))
    /\ Reference.sin (twiddle_angle (2 ^ a))
       = Variant.sin (twiddle_angle (2 ^ a)).
Proof.
  intros a Ha.
  assert (Hcases : In a (map Z.of_nat (seq 1 29))).
  { apply in_map_iff. exists (Z.to_nat a). split; [lia|].
    apply in_seq. lia. }
  cbn [seq map In] in Hcases.
  repeat (destruct Hcases as [<-|Hcases];
          [split; vm_compute; reflexivity|]).
  contradiction.
Qed.


(** ** The round trip on concrete buffers *)

(** on the reference platform the round trip of the generated data of
    seed "test" is within the tolerance at the lengths 1, 2, 4 and 16 *)
Example round_trip_of_generated_data :
  map (fun n => round_trip_close Reference.cos Reference.sin 600
                  (generateData "test" n) (repeat 0%float (Z.to_nat n)))
      [1; 2; 4; 16]
  = map Return [true; true; true; true].
Proof. vm_compute. reflexivity. Qed.

(** at length 2 no cosine or sine enters the result: with the entries
    2^26 and 0x1.3333333333333p-2 the sum and the difference are
    rounded to multiples of 2^-26, and the second entry comes back
    further than 1e-9 from what it was, on every platform *)
Example round_trip_fails_at_2p26 :
  forall Math_cos Math_sin : float -> float,
    ~ round_trip_holds Math_cos Math_sin.
Proof.
  intros c s H.
  specialize (H [67108864; 0x1.3333333333333p-2]%float [0; 0]%float
                ltac:(right; left; reflexivity) eq_refl 600%nat
                ltac:(apply Nat.le_refl)).
  assert (Hrun : round_trip_close c s 600
                   [67108864; 0x1.3333333333333p-2]%float [0; 0]%float
                 = Return false) by (vm_compute; reflexivity).
  rewrite Hrun in H. discriminate H.
Qed.

Lemma judge_selects_first_matching_response_witness :
  let rs := [mkResponse "h0" (Some "PERIODIC") None;
             mkResponse "h1" (Some "WHITE_NOISE") None;
             mkResponse "h2" (Some "WHITE_NOISE") None] in
  16 <= 2 ^ 29 /\ (30 <= 40)%nat /\ 16 <= Z.of_nat 40
  /\ exists label : string,
       processSignalClassify SHA256.sha256hex Reference.cos Reference.sin
                             40 "test" 16
       = Return (mkResult (SHA256.sha256hex label) (Some label))
       /\ exists (i : nat) (r : Response),
            nth_error rs i = Some r
            /\ judgeResponses SHA256.sha256hex Reference.cos Reference.sin
                              40 "test" 16 (Some rs)
               = Return (mkResult (response_output_hash r)
                                  (Some (String_of_Z (Z.of_nat i)))).
Proof.
  intros rs.
  assert (H1 : 16 <= 2 ^ 29) by (vm_compute; discriminate).
  assert (H2 : (30 <= 40)%nat) by (apply Nat.leb_le; reflexivity).
  assert (H3 : 16 <= Z.of_nat 40) by (vm_compute; discriminate).
  repeat (split; [assumption|]).
  destruct (judge_selects_first_matching_response
              SHA256.sha256hex Reference.cos Reference.sin) as [Hsel _].
  destruct (Hsel 40%nat "test" 16 (Some rs) H1 H2 H3)
    as (label & Hown & i & r & Hnth & Hrun & _).
  exists label. split; [exact Hown|]. exists i, r. split; assumption.
Defined.

(** at the size 2^30 + 1 the own classification never finds its
    transform length, and judging returns nothing, whatever the platform
    and the fuel *)
Example judge_above_2p30_never_returns :
  ~ exists (c s : float -> float) (fuel : nat) (r : Result),
      judgeResponses SHA256.sha256hex c s fuel "test" 1073741825
        (Some [mkResponse "h0" (Some "WHITE_NOISE") None])
      = Return r.
Proof.
  intros (c & s & fuel & r & Hrun).
  pose proof (judgeResponses_diverges SHA256.sha256hex c s fuel "test"
                1073741825
                (Some [mkResponse "h0" (Some "WHITE_NOISE") None])) as Hd.
  rewrite Hrun in Hd. discriminate Hd. vm_compute. reflexivity.
Qed.

(** * Further properties of the kernels *)

(** ** The generator *)

Lemma rng_state_after_bounded (n : nat) :
  forall st, rng_bounded st -> rng_bounded (rng_state_after n st).
Proof.
  induction n as [|n IH]; intros st Hst; cbn [rng_state_after].
  - exact Hst.
  - apply IH. apply (rng_bounded_step st Hst).
Qed.

(** X1. However often the closure has been called, its next call adds
    two words whose sum is below 2^53 in magnitude, so that the addition
    of the source is exact, and returns an integer from 0 to 2^32 - 1. *)
Theorem rng_values_are_uint32 :
  forall (codes : list Z) (n : nat),
    let st := rng_state_after n (xorshift128plus_codes codes) in
    0 <= fst (rng st) < 2 ^ 32
    /\ - 2 ^ 53 < s0 (snd (rng st)) + s1 (snd (rng st)) < 2 ^ 53
    /\ - 2 ^ 31 <= s1 (snd (rng st)) < 2 ^ 31.
Proof.
  intros codes n st.
  assert (Hst : rng_bounded st)
    by apply rng_state_after_bounded, xorshift128plus_codes_bounded.
  destruct (rng_bounded_step st Hst) as (_ & Hsum & Hout).
  repeat split; try apply Hsum; try apply Hout;
    unfold rng; cbn [snd s1]; apply js_xor_range.
Qed.

(** the step of the specification sends no other state to (0, 0) *)
Lemma step_zero (x y : Z) :
  0 <= x < two32 -> 0 <= y < two32 ->
  snd (GeneratorSpec.step (x, y)) = (0, 0) -> x = 0 /\ y = 0.
Proof.
  intros R0 R1. unfold GeneratorSpec.step. cbn [fst snd].
  set (x1 := Z.lxor x (Z.shiftl x 23 mod 2 ^ 32)).
  set (x2 := Z.lxor x1 (Z.shiftr x1 17)).
  intros H.
  pose proof (f_equal fst H) as Hy. pose proof (f_equal snd H) as Hx.
  cbn [fst snd] in Hy, Hx. subst y.
  rewrite Z.shiftr_0_l, !Z.lxor_0_r in Hx.
  assert (Hx1 : 0 <= x1 < two32).
  { unfold x1. apply lxor_range; [assumption|].
    rewrite <- two32_pow. apply Z.mod_pos_bound. reflexivity. }
  assert (E1 : x1 = 0).
  { unfold x2 in Hx. apply Z.lxor_eq in Hx.
    rewrite Z.shiftr_div_pow2 in Hx by lia.
    change (2 ^ 17) with 131072 in Hx. unfold two32 in Hx1.
    clearbody x1. clear H. Z.div_mod_to_equations. lia. }
  split; [|reflexivity].
  unfold x1 in E1. apply Z.lxor_eq in E1.
  rewrite Z.shiftl_mul_pow2 in E1 by lia.
  change (2 ^ 23) with 8388608 in E1.
  change (2 ^ 32) with 4294967296 in E1.
  unfold two32 in R0. clear H Hx Hx1. clearbody x1.
  Z.div_mod_to_equations. lia.
Qed.

Lemma rng_state_after_rel (n : nat) :
  forall st sp, rng_rel st sp ->
  exists sp', rng_rel (rng_state_after n st) sp'
              /\ (sp' = (0, 0) -> sp = (0, 0)).
Proof.
  induction n as [|n IH]; intros st sp R; cbn [rng_state_after].
  - exists sp. split; [exact R|auto].
  - destruct (step_rel st sp R) as [_ Rnext].
    destruct (IH _ _ Rnext) as (sp' & R' & Hzero).
    exists sp'. split; [exact R'|].
    intros E. specialize (Hzero E).
    destruct R as (_ & _ & R0 & R1).
    destruct sp as [x y]. cbn [fst snd] in R0, R1.
    destruct (step_zero x y R0 R1 Hzero) as [-> ->]. reflexivity.
Qed.

(** X2. The closure never reaches the state with both words 0 modulo
    2^32, at which it would return 0 for ever: the two tests after the
    seed loop exclude it at the start, and no call leads to it from
    another state. *)
Theorem rng_state_never_zero :
  forall (codes : list Z) (n : nat),
    let st := rng_state_after n (xorshift128plus_codes codes) in
    ~ (ToUint32 (s0 st) = 0 /\ ToUint32 (s1 st) = 0).
Proof.
  intros codes n st [H0 H1].
  destruct (rng_state_after_rel n _ _ (init_rel codes))
    as (sp' & (E0 & E1 & _) & Hzero).
  fold st in E0, E1.
  assert (Hsp : sp' = (0, 0)).
  { destruct sp' as [a b]. cbn [fst snd] in *. congruence. }
  specialize (Hzero Hsp).
  unfold GeneratorSpec.init in Hzero.
  destruct (fold_left _ codes (0, 0)) as [a b].
  injection Hzero as Ha Hb.
  destruct (Z.eqb_spec a 0); [discriminate Ha|contradiction].
Qed.

(** ** generateData *)

Lemma generateData_loop_map (n : nat) :
  forall st, generateData_loop n st = map sample (rng_values n st).
Proof.
  induction n as [|n IH]; intros st; cbn [generateData_loop rng_values].
  - reflexivity.
  - destruct (rng st) as [v st']. cbn [map]. rewrite IH. reflexivity.
Qed.

Lemma rng_values_firstn (m : nat) :
  forall (n : nat) st, (m <= n)%nat ->
  firstn m (rng_values n st) = rng_values m st.
Proof.
  induction m as [|m IH]; intros n st Hmn; [reflexivity|].
  destruct n as [|n]; [inversion Hmn|].
  cbn [rng_values]. destruct (rng st) as [v st']. cbn [firstn].
  rewrite IH by (apply le_S_n; exact Hmn). reflexivity.
Qed.

(** X3. For sizes that are not negative, generateData returns exactly
    [size] samples, the sample at each index is computed from the
    closure's value of that index alone, and the data of a smaller size
    are the first samples of the data of a larger size for the same
    seed. *)
Theorem generateData_prefix :
  forall (seed : string) (m n : Z),
    0 <= m <= n ->
    List.length (generateData seed n) = Z.to_nat n
    /\ generateData seed n
       = map sample (rng_values (Z.to_nat n) (xorshift128plus seed))
    /\ firstn (Z.to_nat m) (generateData seed n) = generateData seed m.
Proof.
  intros seed m n Hmn. unfold generateData.
  rewrite !generateData_loop_map. repeat split.
  - rewrite length_map. clear. revert seed.
    generalize (Z.to_nat n) as k. intros k seed.
    generalize (xorshift128plus seed) as st.
    induction k as [|k IH]; intros st; cbn [rng_values]; [reflexivity|].
    destruct (rng st) as [v st']. cbn [List.length]. rewrite IH. reflexivity.
  - rewrite firstn_map, rng_values_firstn by lia. reflexivity.
Qed.

Lemma generateData_prefix_witness :
  0 <= 3 <= 8
  /\ firstn (Z.to_nat 3) (generateData "test" 8) = generateData "test" 3.
Proof.
  assert (H : 0 <= 3 <= 8) by lia.
  split; [exact H|]. apply (generateData_prefix "test" 3 8 H).
Defined.

(** ** Monte Carlo *)

Section FurtherHashProperties.

Variable sha256hex : string -> string.
Variable Number_toString_large : float -> string.

(** X4. Where Monte Carlo returns, and what it divides.  For sizes up
    to 2^53 it returns, on enough fuel, the digest of the estimate
    4 * inside / size, where the count [inside] lies between 0 and the
    size (it is 0 for a size that is zero or negative).  Above 2^53 the
    counter of its loop, a binary64, stops at 2^53: the loop does not
    end and the processor returns nothing, whatever the fuel.  It
    raises at no size. *)
Theorem monte_carlo_inside_count :
  (forall (fuel : nat) (seed : string) (shardSize : Z),
      shardSize <= 2 ^ 53 -> shardSize <= Z.of_nat fuel ->
      exists inside : Z,
        0 <= inside <= Z.max 0 shardSize
        /\ processMonteCarlo sha256hex Number_toString_large fuel seed
                             shardSize
           = Return
               (mkResult
                  (sha256hex
                     (toFixed Number_toString_large
                        (4 * Z2float inside / Z2float shardSize)%float 10))
                  None))
  /\ (forall (fuel : nat) (seed : string) (shardSize : Z),
        2 ^ 53 < shardSize ->
        returns (processMonteCarlo sha256hex Number_toString_large fuel
                                   seed shardSize) = false)
  /\ (forall (fuel : nat) (seed : string) (shardSize : Z),
        raises (processMonteCarlo sha256hex Number_toString_large fuel
                                  seed shardSize) = false).
Proof.
  split; [|split].
  - intros fuel sd size Hmax Hfuel.
    exists (inside_count (Z.to_nat size) (xorshift128plus sd) 0).
    split; [|apply processMonteCarlo_counts; assumption].
    pose proof (inside_count_bounds (Z.to_nat size) (xorshift128plus sd) 0).
    lia.
  - intros fuel sd size Hbig.
    rewrite processMonteCarlo_diverges by exact Hbig. reflexivity.
  - intros fuel sd size. apply processMonteCarlo_raises.
Qed.

(** ** SHA chain *)

Lemma sha_rounds_app (a : nat) :
  forall (b : nat) (h : string),
    sha_rounds sha256hex (a + b) h
    = sha_rounds sha256hex b (sha_rounds sha256hex a h).
Proof.
  induction a as [|a IH]; intros b h; [reflexivity|].
  cbn [Nat.add sha_rounds]. apply IH.
Qed.

(** X5. The SHA chain applies at most 10000 rounds: every size from
    10000 on gives the output_hash of size 10000, and every size that is
    zero or negative gives back the seed. *)
Theorem sha_chain_round_cap :
  forall (seed : string) (shardSize : Z),
    (10000 <= shardSize ->
     processShaChain sha256hex seed shardSize
     = processShaChain sha256hex seed 10000)
    /\ (shardSize <= 0 ->
        processShaChain sha256hex seed shardSize
        = Return (mkResult seed None)).
Proof.
  intros seed shardSize. unfold processShaChain. split; intros H.
  - rewrite Z.min_r by lia. reflexivity.
  - rewrite Z.min_l by lia.
    destruct shardSize; try lia; reflexivity.
Qed.

(** X6. Chains compose: as long as the total stays within 10000 rounds,
    the chain of size [a + b] on a seed is the chain of size [b] on the
    output_hash of the chain of size [a]. *)
Theorem sha_chain_composes :
  forall (seed : string) (a b : Z),
    0 <= a -> 0 <= b -> a + b <= 10000 ->
    processShaChain sha256hex seed (a + b)
    = (r <- processShaChain sha256hex seed a ;;
       processShaChain sha256hex (output_hash r) b).
Proof.
  intros seed a b Ha Hb Hsum. unfold processShaChain. cbn [bind output_hash].
  rewrite !Z.min_l by lia.
  rewrite Z2Nat.inj_add by lia. rewrite sha_rounds_app. reflexivity.
Qed.

(** ** Hash search and Candidate verification *)

(** X7. For sizes that are not negative the prefix has 2 characters
    below size 4095, 3 from 4095, 4 from 65535 and 5 from 1048575 on,
    and never fewer than 2 or more than 5. *)
Theorem prefixLen_thresholds :
  forall shardSize : Z,
    0 <= shardSize ->
    prefixLen shardSize
    = (if shardSize <? 4095 then 2
       else if shardSize <? 65535 then 3
       else if shardSize <? 1048575 then 4
       else 5)
    /\ 2 <= prefixLen shardSize <= 5.
Proof.
  intros shardSize H0. rewrite prefixLen_clamp by assumption.
  assert (Hpos : 0 < shardSize + 1) by lia.
  pose proof (Z.log2_lt_pow2 (shardSize + 1) 12 Hpos) as H12.
  pose proof (Z.log2_lt_pow2 (shardSize + 1) 16 Hpos) as H16.
  pose proof (Z.log2_lt_pow2 (shardSize + 1) 20 Hpos) as H20.
  change (2 ^ 12) with 4096 in H12. change (2 ^ 16) with 65536 in H16.
  change (2 ^ 20) with 1048576 in H20.
  pose proof (Z.log2_nonneg (shardSize + 1)) as Hnn.
  destruct (Z.ltb_spec shardSize 4095);
    [|destruct (Z.ltb_spec shardSize 65535);
      [|destruct (Z.ltb_spec shardSize 1048575)]];
    split; Z.div_mod_to_equations; lia.
Qed.

Lemma prefixLen_thresholds_witness :
  0 <= 8192 /\ prefixLen 8192 = 3.
Proof.
  assert (H : 0 <= 8192) by lia. split; [exact H|].
  destruct (prefixLen_thresholds 8192 H) as [E _]. exact E.
Defined.

Lemma prefix_substring_mono (k1 : nat) :
  forall (k2 : nat) (s c : string),
    (k1 <= k2)%nat ->
    String.prefix (String.substring 0 k2 s) c = true ->
    String.prefix (String.substring 0 k1 s) c = true.
Proof.
  induction k1 as [|k1 IH]; intros k2 s c Hk Hp.
  - destruct s, c; reflexivity.
  - destruct k2 as [|k2]; [inversion Hk|].
    destruct s as [|a s]; [exact Hp|].
    cbn [String.substring] in *.
    destruct c as [|b c]; cbn [String.prefix] in *; [discriminate Hp|].
    destruct (ascii_dec a b); [|discriminate Hp].
    apply (IH k2); [apply le_S_n; exact Hk|exact Hp].
Qed.

Lemma prefixLen_mono (a b : Z) :
  0 <= a <= b -> prefixLen a <= prefixLen b.
Proof.
  intros H. rewrite !prefixLen_clamp by lia.
  assert (Z.log2 (a + 1) <= Z.log2 (b + 1)) by (apply Z.log2_le_mono; lia).
  assert (Z.log2 (a + 1) / 4 <= Z.log2 (b + 1) / 4)
    by (apply Z.div_le_mono; lia).
  lia.
Qed.

(** X8. A candidate that verifies for a size verifies for every smaller
    size that is not negative, with the same Result: the prefix of the
    smaller size is a prefix of that of the larger. *)
Theorem verification_survives_smaller_size :
  forall (seed candidate : string) (small large : Z) (r : Result),
    0 <= small <= large ->
    verifyCandidate sha256hex seed large candidate = Return r ->
    output_value r = Some "valid" ->
    verifyCandidate sha256hex seed small candidate = Return r.
Proof.
  intros seed candidate small large r Hsize Hrun Hvalid.
  unfold verifyCandidate in *. cbv zeta in *.
  destruct (truthy candidate
            && startsWith candidate (searchPrefix sha256hex seed large))
    eqn:Hlarge.
  - apply andb_prop in Hlarge. destruct Hlarge as [Ht Hp].
    rewrite Ht. unfold startsWith, searchPrefix, substring0 in *.
    assert (Hk : (Z.to_nat (prefixLen small)
                  <= Z.to_nat (prefixLen large))%nat)
      by (pose proof (prefixLen_mono small large Hsize); lia).
    rewrite (prefix_substring_mono _ _ _ _ Hk Hp). exact Hrun.
  - injection Hrun as <-. discriminate Hvalid.
Qed.

(** X9. When the digest function returns 64 hex characters, the value
    "NOTFOUND" of an exhausted search does not verify for any size from
    -1 on: Candidate verification returns "invalid" for it. *)
Theorem notfound_does_not_verify :
  (forall s : string, digest_shaped (sha256hex s)) ->
  forall (seed : string) (shardSize : Z),
    -1 <= shardSize ->
    verifyCandidate sha256hex seed shardSize "NOTFOUND"
    = Return (mkResult (sha256hex "INVALID:NOTFOUND") (Some "invalid")).
Proof.
  intros Hshape seed shardSize Hsize.
  unfold verifyCandidate, searchPrefix, substring0. cbv zeta.
  destruct (Hshape seed) as [Hlen Hhex].
  assert (Hk : exists k, Z.to_nat (prefixLen shardSize) = S k).
  { unfold prefixLen. destruct (Z.ltb_spec (shardSize + 1) 0); [lia|].
    exists (Z.to_nat (Z.min (Z.max 2 (Z.log2 (shardSize + 1) / 4)) 5 - 1)).
    lia. }
  destruct Hk as (k & ->).
  destruct (sha256hex seed) as [|c rest]; [discriminate Hlen|].
  cbn [hex_string] in Hhex. apply andb_prop in Hhex. destruct Hhex as [Hc _].
  cbn [String.substring startsWith String.prefix truthy andb].
  unfold startsWith. cbn [String.prefix].
  destruct (ascii_dec c "N"%char) as [->|Hne]; [discriminate Hc|].
  reflexivity.
Qed.


(** X18. A larger size never ends the search earlier.  When the digest
    tried at some nonce of the range starts with the prefix of a size,
    Hash search for every smaller size that is not negative finds a
    digest at that nonce or before it, and does not return "NOTFOUND". *)
Theorem hash_search_found_for_smaller_size :
  forall (seed : string) (small large nonce : Z),
    0 <= small <= large ->
    0 <= nonce <= 500000 ->
    startsWith (attempt sha256hex seed nonce)
               (searchPrefix sha256hex seed large) = true ->
    exists first : Z,
      0 <= first <= nonce
      /\ startsWith (attempt sha256hex seed first)
                    (searchPrefix sha256hex seed small) = true
      /\ processHashSearch sha256hex seed small
         = Return (mkResult (sha256hex (attempt sha256hex seed first))
                            (Some (attempt sha256hex seed first))).
Proof.
  intros seed small large nonce Hsize Hnonce Hhit.
  assert (Hsmall : startsWith (attempt sha256hex seed nonce)
                              (searchPrefix sha256hex seed small) = true).
  { unfold startsWith, searchPrefix, substring0 in *.
    assert (Hk : (Z.to_nat (prefixLen small)
                  <= Z.to_nat (prefixLen large))%nat)
      by (pose proof (prefixLen_mono small large Hsize); lia).
    exact (prefix_substring_mono _ _ _ _ Hk Hhit). }
  unfold processHashSearch. cbv zeta.
  pose proof (search_loop_spec sha256hex seed
                (searchPrefix sha256hex seed small) (Z.to_nat 500001) 0)
    as Hloop.
  destruct (search_loop sha256hex (Z.to_nat 500001) seed
              (searchPrefix sha256hex seed small) 0) as [r|].
  - destruct Hloop as (k & Hk & Hs & -> & Hbefore).
    rewrite Z.add_0_l in *. exists (Z.of_nat k).
    split; [|split; [exact Hs|reflexivity]].
    split; [lia|].
    destruct (Z.le_gt_cases (Z.of_nat k) nonce) as [Hle|Hgt]; [exact Hle|].
    specialize (Hbefore (Z.to_nat nonce) ltac:(lia)).
    rewrite Z.add_0_l, Z2Nat.id in Hbefore by lia. congruence.
  - specialize (Hloop (Z.to_nat nonce) ltac:(lia)).
    rewrite Z.add_0_l, Z2Nat.id in Hloop by lia. congruence.
Qed.

End FurtherHashProperties.

Lemma hexdigit_is_hex (n : Z) : is_hex_digit (SHA256.hexdigit n) = true.
Proof.
  unfold SHA256.hexdigit.
  pose proof (Z.mod_pos_bound n 16 eq_refl) as Hm.
  assert (Hk : (Z.to_nat (n mod 16) < 16)%nat) by lia.
  generalize dependent (Z.to_nat (n mod 16)). intros k Hk.
  do 16 (destruct k as [|k]; [reflexivity|]). lia.
Qed.

Lemma sha256hex_digest_shaped (s : string) :
  digest_shaped (SHA256.sha256hex s).
Proof.
  split; [reflexivity|].
  unfold SHA256.sha256hex, SHA256.hex, SHA256.hex8. cbn [hex_string].
  rewrite !hexdigit_is_hex. reflexivity.
Qed.

Lemma sha_chain_composes_witness :
  0 <= 2 /\ 0 <= 3 /\ 2 + 3 <= 10000
  /\ processShaChain SHA256.sha256hex "s" (2 + 3)
     = (r <- processShaChain SHA256.sha256hex "s" 2 ;;
        processShaChain SHA256.sha256hex (output_hash r) 3).
Proof.
  assert (Ha : 0 <= 2) by lia. assert (Hb : 0 <= 3) by lia.
  assert (Hs : 2 + 3 <= 10000) by lia.
  repeat (split; [assumption|]).
  exact (sha_chain_composes SHA256.sha256hex "s" 2 3 Ha Hb Hs).
Defined.

Lemma verification_survives_smaller_size_witness :
  let c :=
    "252f10c83610ebca1a059c0bae8255eba2f95be4d1d7bcfa89d7248a82d9f111" in
  let r := mkResult (SHA256.sha256hex c) (Some "valid") in
  0 <= 16 <= 70000
  /\ verifyCandidate SHA256.sha256hex "f" 70000 c = Return r
  /\ verifyCandidate SHA256.sha256hex "f" 16 c = Return r.
Proof.
  intros c r.
  assert (Hsize : 0 <= 16 <= 70000) by lia.
  assert (Hrun : verifyCandidate SHA256.sha256hex "f" 70000 c = Return r)
    by (vm_compute; reflexivity).
  repeat (split; [assumption|]).
  exact (verification_survives_smaller_size SHA256.sha256hex "f" c 16 70000
           r Hsize Hrun eq_refl).
Defined.

Lemma notfound_does_not_verify_witness :
  (forall s : string, digest_shaped (SHA256.sha256hex s))
  /\ -1 <= 16
  /\ verifyCandidate SHA256.sha256hex "f" 16 "NOTFOUND"
     = Return (mkResult (SHA256.sha256hex "INVALID:NOTFOUND")
                        (Some "invalid")).
Proof.
  assert (H : -1 <= 16) by lia.
  split; [exact sha256hex_digest_shaped|]. split; [exact H|].
  exact (notfound_does_not_verify SHA256.sha256hex sha256hex_digest_shaped
           "f" 16 H).
Defined.


Lemma hash_search_found_for_smaller_size_witness :
  0 <= 16 <= 4095 /\ 0 <= 1320 <= 500000
  /\ exists first : Z,
      0 <= first <= 1320
      /\ startsWith (attempt SHA256.sha256hex "f" first)
                    (searchPrefix SHA256.sha256hex "f" 16) = true
      /\ processHashSearch SHA256.sha256hex "f" 16
         = Return (mkResult
                     (SHA256.sha256hex (attempt SHA256.sha256hex "f" first))
                     (Some (attempt SHA256.sha256hex "f" first))).
Proof.
  assert (Hsize : 0 <= 16 <= 4095) by lia.
  assert (Hnonce : 0 <= 1320 <= 500000) by lia.
  split; [exact Hsize|]. split; [exact Hnonce|].
  apply (hash_search_found_for_smaller_size SHA256.sha256hex "f" 16 4095 1320
           Hsize Hnonce).
  vm_compute. reflexivity.
Defined.

(** ** The transform and the spectral kernels *)

Lemma set_nat_length (a : list float) :
  forall (i : nat) (v : float), List.length (set_nat a i v) = List.length a.
Proof.
  induction a as [|x a IH]; intros i v; cbn [set_nat]; [reflexivity|].
  destruct i; cbn [List.length]; [reflexivity|]. rewrite IH. reflexivity.
Qed.

Lemma set_length (a : list float) (i : Z) (v : float) :
  List.length (set a i v) = List.length a.
Proof.
  unfold set. destruct (i <? 0); [reflexivity|apply set_nat_length].
Qed.

Lemma swap_length (a : list float) (i j : Z) :
  List.length (swap a i j) = List.length a.
Proof. unfold swap. rewrite !set_length. reflexivity. Qed.

Lemma butterfly_loop_length (count : nat) :
  forall i j len wRe wIm curRe curIm re im,
    List.length (fst (butterfly_loop count i j len wRe wIm curRe curIm re im))
    = List.length re
    /\ List.length (snd (butterfly_loop count i j len wRe wIm curRe curIm
                                         re im))
       = List.length im.
Proof.
  induction count as [|count IH]; intros i j len wRe wIm curRe curIm re im;
    cbn [butterfly_loop]; [split; reflexivity|].
  cbv zeta.
  match goal with
  | |- context [butterfly_loop count ?i' ?j' ?l ?a ?b ?c ?d ?r ?m] =>
      destruct (IH i' j' l a b c d r m) as [H1 H2]
  end.
  rewrite H1, H2, !set_length. split; reflexivity.
Qed.

Lemma block_loop_length (fuel : nat) :
  forall i n len wRe wIm re im re' im',
    block_loop fuel i n len wRe wIm re im = Return (re', im') ->
    List.length re' = List.length re /\ List.length im' = List.length im.
Proof.
  induction fuel as [|fuel IH]; intros i n len wRe wIm re im re' im';
    cbn [block_loop]; destruct (i <? n); intros H; try discriminate H;
    try (injection H as <- <-; split; reflexivity).
  apply IH in H. destruct H as [H1 H2].
  destruct (butterfly_loop_length (Z.to_nat (len / 2)) i 0 len wRe wIm 1 0
                                  re im) as [L1 L2].
  rewrite H1, H2, L1, L2. split; reflexivity.
Qed.

Lemma bitrev_loop_length (fuel count : nat) :
  forall i j n re im re' im',
    bitrev_loop fuel count i j n re im = Return (re', im') ->
    List.length re' = List.length re /\ List.length im' = List.length im.
Proof.
  induction count as [|count IH]; intros i j n re im re' im';
    cbn [bitrev_loop]; intros H.
  - injection H as <- <-. split; reflexivity.
  - destruct (bit_loop fuel j (js_shr n 1)) as [jb| |]; cbn [bind] in H;
      try discriminate H.
    destruct (i <? js_xor (fst jb) (snd jb)); apply IH in H;
      rewrite ?swap_length in H; exact H.
Qed.

Section FurtherSpectralProperties.

Variable sha256hex : string -> string.
Variables Math_cos Math_sin : float -> float.
Variable Number_toString_large : float -> string.

Lemma stage_loop_length (budget fuel : nat) :
  forall len n re im re' im',
    stage_loop Math_cos Math_sin budget fuel len n re im = Return (re', im') ->
    List.length re' = List.length re /\ List.length im' = List.length im.
Proof.
  induction fuel as [|fuel IH]; intros len n re im re' im';
    cbn [stage_loop]; destruct (len <=? n); intros H; try discriminate H;
    try (injection H as <- <-; split; reflexivity).
  cbv zeta in H.
  match type of H with
  | bind ?c _ = _ => destruct c as [[re1 im1]| |] eqn:Hb
  end; cbn [bind fst snd] in H; try discriminate H.
  apply block_loop_length in Hb. apply IH in H.
  destruct Hb as [B1 B2], H as [H1 H2]. rewrite H1, H2, B1, B2.
  split; reflexivity.
Qed.

(** X13. The transform works in place: on buffers of a length up to
    2^29 it returns, on enough fuel, two buffers of the length of the
    real and of the imaginary input; it raises on no input. *)
Theorem fft_keeps_lengths :
  forall (fuel : nat) (re im : list float),
    Z.of_nat (List.length re) <= 2 ^ 29 ->
    Z.of_nat (List.length re) <= 2 * Z.of_nat fuel ->
    (30 <= fuel)%nat ->
    exists re' im' : list float,
      fft Math_cos Math_sin fuel re im = Return (re', im')
      /\ List.length re' = List.length re
      /\ List.length im' = List.length im.
Proof.
  intros fuel re im Hn Hbudget Hfuel.
  pose proof (fft_returns Math_cos Math_sin fuel re im Hn Hbudget Hfuel) as Hr.
  destruct (fft Math_cos Math_sin fuel re im) as [[re' im']| |] eqn:Hrun;
    try discriminate Hr.
  exists re', im'. split; [reflexivity|].
  unfold fft in Hrun.
  match type of Hrun with
  | bind ?c _ = _ => destruct c as [[re1 im1]| |] eqn:Hb
  end; cbn [bind fst snd] in Hrun; try discriminate Hrun.
  apply bitrev_loop_length in Hb. apply stage_loop_length in Hrun.
  destruct Hb as [B1 B2], Hrun as [H1 H2]. rewrite H1, H2, B1, B2.
  split; reflexivity.
Qed.

(** X12. On enough fuel the Spectral, Simulation and Signal
    classification kernels return a Result for every size up to 2^29;
    for every larger size none of them returns, whatever the fuel; and
    none of them raises. *)
Theorem spectral_kernels_return_up_to_2p29 :
  (forall (fuel : nat) (seed : string) (shardSize : Z),
      shardSize <= 2 ^ 29 -> (30 <= fuel)%nat ->
      shardSize <= Z.of_nat fuel ->
      returns (processFFT sha256hex Math_cos Math_sin Number_toString_large
                          fuel seed shardSize) = true
      /\ returns (processSimulation sha256hex Math_cos Math_sin
                    Number_toString_large fuel seed shardSize) = true
      /\ returns (processSignalClassify sha256hex Math_cos Math_sin
                    fuel seed shardSize) = true)
  /\ (forall (fuel : nat) (seed : string) (shardSize : Z),
        2 ^ 29 < shardSize ->
        returns (processFFT sha256hex Math_cos Math_sin Number_toString_large
                            fuel seed shardSize) = false
        /\ returns (processSimulation sha256hex Math_cos Math_sin
                      Number_toString_large fuel seed shardSize) = false
        /\ returns (processSignalClassify sha256hex Math_cos Math_sin
                      fuel seed shardSize) = false)
  /\ (forall (fuel : nat) (seed : string) (shardSize : Z),
        raises (processFFT sha256hex Math_cos Math_sin Number_toString_large
                           fuel seed shardSize) = false
        /\ raises (processSimulation sha256hex Math_cos Math_sin
                     Number_toString_large fuel seed shardSize) = false
        /\ raises (processSignalClassify sha256hex Math_cos Math_sin
                     fuel seed shardSize) = false).
Proof.
  split; [|split].
  - intros fuel sd size Hmax Hfuel Hsize. split; [|split].
    + apply processFFT_outcome; assumption.
    + apply processSimulation_outcome; assumption.
    + destruct (processSignalClassify_returns sha256hex Math_cos Math_sin
                  fuel sd size) as (label & ->); auto.
  - intros fuel sd size Hbig. split; [|split].
    + unfold processFFT.
      apply (spectral_head_diverges Math_cos Math_sin fuel sd size
               (fun n ri => _) Hbig).
    + unfold processSimulation.
      apply (spectral_head_diverges Math_cos Math_sin fuel sd size
               (fun n ri => _) Hbig).
    + apply processSignalClassify_diverges. exact Hbig.
  - intros fuel sd size. split; [|split].
    + apply processFFT_outcome.
    + apply processSimulation_outcome.
    + apply processSignalClassify_raises.
Qed.

(** X11. For a size of 2 or less the transform has no bin between the
    first and the middle one: the scan loop does not run, the ratio is
    NaN, and Signal classification returns "WHITE_NOISE" for every seed
    on every platform. *)
Theorem degenerate_sizes_classify_as_white_noise :
  forall (fuel : nat) (seed : string) (shardSize : Z),
    shardSize <= 2 -> (30 <= fuel)%nat ->
    processSignalClassify sha256hex Math_cos Math_sin fuel seed shardSize
    = Return (mkResult (sha256hex "WHITE_NOISE") (Some "WHITE_NOISE")).
Proof.
  intros fuel seed shardSize Hsize Hfuel. unfold processSignalClassify.
  assert (Hn : exists n, (n = 1 \/ n = 2)
                         /\ pow2_loop fuel 1 shardSize = Return n).
  { destruct fuel as [|fuel]; [inversion Hfuel|]. cbn [pow2_loop].
    destruct (Z.ltb_spec 1 shardSize).
    - assert (shardSize = 2) by lia. subst shardSize.
      exists 2. split; [right; reflexivity|].
      change (js_shl 1 1) with 2. destruct fuel; reflexivity.
    - exists 1. split; [left; reflexivity|reflexivity]. }
  destruct Hn as (n & Hcases & ->). cbn [bind].
  assert (Hs : returns (spectrum Math_cos Math_sin fuel seed n) = true).
  { apply spectrum_returns; try assumption; destruct Hcases; subst n; lia. }
  destruct (spectrum Math_cos Math_sin fuel seed n) as [ri| |];
    try discriminate Hs.
  cbn [bind]. destruct Hcases; subst n; reflexivity.
Qed.

End FurtherSpectralProperties.

(** ** The bit-reversal loop of the transform *)

Lemma pow2_S (m : nat) : 2 ^ Z.of_nat (S m) = 2 * 2 ^ Z.of_nat m.
Proof. rewrite Nat2Z.inj_succ, Z.pow_succ_r by lia. reflexivity. Qed.

Lemma pow2_pos (m : nat) : 0 < 2 ^ Z.of_nat m.
Proof. apply Z.pow_pos_nonneg; lia. Qed.

Lemma bit_reverse_range (m : nat) :
  forall x, 0 <= bit_reverse m x < 2 ^ Z.of_nat m.
Proof.
  induction m as [|m IH]; intros x; cbn [bit_reverse].
  - change (2 ^ Z.of_nat 0) with 1. lia.
  - rewrite pow2_S. pose proof (IH (x / 2)). pose proof (pow2_pos m).
    pose proof (Z.mod_pos_bound x 2 ltac:(lia)). nia.
Qed.

Lemma testbit_above (a : Z) (m k : Z) :
  0 <= a < 2 ^ m -> 0 <= m <= k -> Z.testbit a k = false.
Proof.
  intros Ha Hk. rewrite <- (Z.mod_small a (2 ^ m)) by lia.
  apply Z.mod_pow2_bits_high. lia.
Qed.

Lemma bit_reverse_testbit (m : nat) :
  forall x k,
    0 <= k < Z.of_nat m ->
    Z.testbit (bit_reverse m x) k = Z.testbit x (Z.of_nat m - 1 - k).
Proof.
  induction m as [|m IH]; intros x k Hk; [lia|].
  cbn [bit_reverse].
  pose proof (bit_reverse_range m (x / 2)) as Hr.
  pose proof (pow2_pos m) as Hp.
  set (r := bit_reverse m (x / 2)) in *.
  destruct (Z.eq_dec k (Z.of_nat m)) as [->|Hne].
  - replace (Z.of_nat (S m) - 1 - Z.of_nat m) with 0 by lia.
    replace (Z.of_nat m) with (0 + Z.of_nat m) at 2 by lia.
    rewrite <- Z.div_pow2_bits by lia.
    rewrite Z.div_add_l by lia.
    rewrite (Z.div_small r) by lia. rewrite Z.add_0_r.
    change 2 with (2 ^ 1) at 1.
    apply Z.mod_pow2_bits_low. lia.
  - rewrite <- (Z.mod_pow2_bits_low _ (Z.of_nat m)) by lia.
    rewrite Z.add_comm, Z.mod_add by lia.
    rewrite Z.mod_small by lia. unfold r. rewrite IH by lia.
    replace (Z.of_nat (S m) - 1 - k) with (Z.succ (Z.of_nat m - 1 - k))
      by lia.
    apply Z.div2_bits. lia.
Qed.

(** reversing twice gives the index back *)
Lemma bit_reverse_involutive (m : nat) (x : Z) :
  0 <= x < 2 ^ Z.of_nat m -> bit_reverse m (bit_reverse m x) = x.
Proof.
  intros Hx. apply Z.bits_inj'. intros k Hk.
  destruct (Z.lt_ge_cases k (Z.of_nat m)).
  - rewrite !bit_reverse_testbit by lia. f_equal. lia.
  - rewrite (testbit_above _ (Z.of_nat m) k)
      by (try apply bit_reverse_range; lia).
    symmetry. apply (testbit_above _ (Z.of_nat m) k); lia.
Qed.

Lemma land_pow2_clear (r k : Z) :
  0 <= k -> 0 <= r < 2 ^ k -> Z.land r (2 ^ k) = 0.
Proof.
  intros Hk Hr. apply Z.bits_inj'. intros i Hi.
  rewrite Z.land_spec, Z.bits_0, Z.pow2_bits_eqb by lia.
  destruct (Z.eqb_spec k i) as [<-|]; [|apply andb_false_r].
  rewrite (testbit_above r k k) by lia. reflexivity.
Qed.

Lemma lxor_pow2_clear (r k : Z) :
  0 <= k -> 0 <= r < 2 ^ k -> Z.lxor r (2 ^ k) = r + 2 ^ k.
Proof.
  intros Hk Hr. symmetry. apply Z.add_nocarry_lxor.
  apply land_pow2_clear; assumption.
Qed.

Lemma js_pow2_clear (r k : Z) :
  0 <= k <= 29 -> 0 <= r < 2 ^ k ->
  js_and r (2 ^ k) = 0 /\ js_xor r (2 ^ k) = r + 2 ^ k.
Proof.
  intros Hk Hr.
  assert (0 < 2 ^ k <= 2 ^ 29)
    by (split; [apply Z.pow_pos_nonneg; lia | apply Z.pow_le_mono_r; lia]).
  unfold js_and, js_xor. rewrite !ToInt32_small by lia.
  split; [apply land_pow2_clear | apply lxor_pow2_clear]; lia.
Qed.

Lemma js_pow2_set (r k : Z) :
  0 <= k <= 29 -> 0 <= r < 2 ^ k ->
  js_and (2 ^ k + r) (2 ^ k) = 2 ^ k /\ js_xor (2 ^ k + r) (2 ^ k) = r.
Proof.
  intros Hk Hr.
  assert (0 < 2 ^ k <= 2 ^ 29)
    by (split; [apply Z.pow_pos_nonneg; lia | apply Z.pow_le_mono_r; lia]).
  unfold js_and, js_xor. rewrite !ToInt32_small by lia.
  rewrite (Z.add_comm (2 ^ k) r), <- lxor_pow2_clear by lia.
  split.
  - apply Z.bits_inj'. intros i Hi.
    rewrite Z.land_spec, Z.lxor_spec, Z.pow2_bits_eqb by lia.
    destruct (Z.eqb_spec k i) as [<-|]; [|apply andb_false_r].
    rewrite (testbit_above r k k) by lia. reflexivity.
  - rewrite Z.lxor_assoc, Z.lxor_nilpotent, Z.lxor_0_r. reflexivity.
Qed.

Lemma js_shr_half (p : Z) : 0 <= p < 2147483648 -> js_shr p 1 = p / 2.
Proof.
  intros Hp. unfold js_shr. change (1 mod 32) with 1.
  rewrite ToInt32_small by lia. rewrite Z.shiftr_div_pow2 by lia.
  reflexivity.
Qed.

Lemma pow2_le_2p30 (m : nat) : (m <= 30)%nat -> 2 ^ Z.of_nat m <= 2 ^ 30.
Proof. intros H. apply Z.pow_le_mono_r; lia. Qed.

(** the inner loop and the xor after it step the reversed counter: from
    the reversal of [y] they reach the reversal of [y + 1] *)
Lemma bit_loop_reverse (w : nat) :
  forall (fuel : nat) (y : Z),
    (w <= 30)%nat -> (w <= fuel)%nat ->
    0 <= y -> y + 1 < 2 ^ Z.of_nat w ->
    exists j' b' : Z,
      bit_loop fuel (bit_reverse w y) (2 ^ Z.of_nat w / 2) = Return (j', b')
      /\ js_xor j' b' = bit_reverse w (y + 1).
Proof.
  induction w as [|w IH]; intros fuel y Hw Hfuel Hy Hlt.
  - change (2 ^ Z.of_nat 0) with 1 in Hlt. lia.
  - rewrite pow2_S in *.
    replace (2 * 2 ^ Z.of_nat w / 2) with (2 ^ Z.of_nat w)
      by (rewrite Z.mul_comm, Z.div_mul; lia).
    cbn [bit_reverse].
    pose proof (bit_reverse_range w (y / 2)) as Hr.
    pose proof (pow2_pos w) as Hp.
    pose proof (pow2_le_2p30 w ltac:(lia)) as Hp30.
    destruct fuel as [|fuel]; [lia|]. cbn [bit_loop].
    assert (Hcases : y mod 2 = 0 \/ y mod 2 = 1)
      by (pose proof (Z.mod_pos_bound y 2); lia).
    destruct Hcases as [Hb|Hb]; rewrite Hb.
    + rewrite Z.mul_0_l, Z.add_0_l.
      destruct (js_pow2_clear (bit_reverse w (y / 2)) (Z.of_nat w))
        as [Ha Hx]; [lia|lia|].
      rewrite Ha. cbn [Z.eqb]. eexists _, _. split; [reflexivity|].
      rewrite Hx.
      replace ((y + 1) mod 2) with 1
        by (Z.div_mod_to_equations; lia).
      replace ((y + 1) / 2) with (y / 2)
        by (Z.div_mod_to_equations; lia).
      lia.
    + rewrite Z.mul_1_l.
      destruct (js_pow2_set (bit_reverse w (y / 2)) (Z.of_nat w))
        as [Ha Hx]; [lia|lia|].
      rewrite Ha, Hx.
      destruct (Z.eqb_spec (2 ^ Z.of_nat w) 0) as [E|_]; [lia|].
      rewrite js_shr_half by (change 2147483648 with (2 ^ 31); lia).
      destruct (IH fuel (y / 2)) as (j' & b' & Hrun & Hnext);
        try lia; try (Z.div_mod_to_equations; lia).
      exists j', b'. split; [exact Hrun|]. rewrite Hnext.
      replace ((y + 1) mod 2) with 0
        by (Z.div_mod_to_equations; lia).
      replace ((y + 1) / 2) with (y / 2 + 1)
        by (Z.div_mod_to_equations; lia).
      lia.
Qed.

Lemma get_set_nat_eq (a : list float) :
  forall (i : nat) (v : float),
    (i < List.length a)%nat -> nth i (set_nat a i v) nan = v.
Proof.
  induction a as [|x a IH]; intros i v Hi; cbn [List.length] in Hi;
    [lia|].
  destruct i; cbn [set_nat nth]; [reflexivity|]. apply IH. lia.
Qed.

Lemma get_set_nat_neq (a : list float) :
  forall (i k : nat) (v : float),
    i <> k -> nth k (set_nat a i v) nan = nth k a nan.
Proof.
  induction a as [|x a IH]; intros i k v Hne; cbn [set_nat];
    [reflexivity|].
  destruct i, k; cbn [nth]; try reflexivity; try congruence.
  apply IH. congruence.
Qed.

Lemma get_set_eq (a : list float) (i : Z) (v : float) :
  0 <= i < Z.of_nat (List.length a) -> get (set a i v) i = v.
Proof.
  intros Hi. unfold get, set.
  destruct (Z.ltb_spec i 0); [lia|]. apply get_set_nat_eq. lia.
Qed.

Lemma get_set_neq (a : list float) (i k : Z) (v : float) :
  i <> k -> get (set a i v) k = get a k.
Proof.
  intros Hne. unfold get, set.
  destruct (Z.ltb_spec k 0); [reflexivity|].
  destruct (Z.ltb_spec i 0); [reflexivity|].
  apply get_set_nat_neq. lia.
Qed.

Lemma get_swap (a : list float) (i j k : Z) :
  0 <= i < Z.of_nat (List.length a) ->
  0 <= j < Z.of_nat (List.length a) ->
  get (swap a i j) k
  = if k =? j then get a i else if k =? i then get a j else get a k.
Proof.
  intros Hi Hj. unfold swap.
  destruct (Z.eqb_spec k j) as [->|Hkj].
  - apply get_set_eq. rewrite set_length. exact Hj.
  - rewrite get_set_neq by congruence.
    destruct (Z.eqb_spec k i) as [->|Hki].
    + apply get_set_eq. exact Hi.
    + apply get_set_neq. congruence.
Qed.

Section BitReversal.

Variable m : nat.
Variable src : list float.
Hypothesis src_length : Z.of_nat (List.length src) = 2 ^ Z.of_nat m.

Lemma reversed_below_step (i : Z) (a : list float) :
  1 <= i < 2 ^ Z.of_nat m ->
  reversed_below m src i a ->
  reversed_below m src (i + 1)
    (if i <? bit_reverse m i then swap a i (bit_reverse m i) else a).
Proof.
  intros Hi [Hlen Hinv].
  pose proof (bit_reverse_range m i) as Hj.
  pose proof (bit_reverse_involutive m i ltac:(lia)) as Hji.
  set (j := bit_reverse m i) in *.
  split.
  - destruct (i <? j); rewrite ?swap_length; exact Hlen.
  - intros k Hk.
    pose proof (bit_reverse_range m k) as Hrk.
    pose proof (bit_reverse_involutive m k Hk) as Hkk.
    assert (Hki : bit_reverse m k = i -> k = j)
      by (intros E; rewrite <- Hkk, E; reflexivity).
    assert (Hik : k = i -> bit_reverse m k = j)
      by (intros ->; reflexivity).
    assert (Hkj : k = j -> bit_reverse m k = i)
      by (intros ->; exact Hji).
    pose proof (Hinv k Hk) as Ek.
    pose proof (Hinv i ltac:(lia)) as Ei. fold j in Ei.
    pose proof (Hinv j Hj) as Ej. rewrite Hji in Ej.
    destruct (Z.ltb_spec i j) as [Hlt|Hge].
    + rewrite get_swap by lia.
      destruct (Z.eqb_spec k j) as [->|Hne1].
      * rewrite Hji.
        destruct (Z.ltb_spec (Z.min j i) (i + 1)); [|lia].
        rewrite Ei. destruct (Z.ltb_spec (Z.min i j) i); [lia|reflexivity].
      * destruct (Z.eqb_spec k i) as [->|Hne2].
        -- fold j.
           destruct (Z.ltb_spec (Z.min i j) (i + 1)); [|lia].
           rewrite Ej. destruct (Z.ltb_spec (Z.min j i) i); [lia|reflexivity].
        -- rewrite Ek.
           destruct (Z.ltb_spec (Z.min k (bit_reverse m k)) i),
                    (Z.ltb_spec (Z.min k (bit_reverse m k)) (i + 1));
             try reflexivity; lia.
    + rewrite Ek.
      destruct (Z.ltb_spec (Z.min k (bit_reverse m k)) i),
               (Z.ltb_spec (Z.min k (bit_reverse m k)) (i + 1));
        try reflexivity; try lia.
      assert (Hmin : Z.min k (bit_reverse m k) = i) by lia.
      assert (k = i /\ bit_reverse m k = i) as [-> ->]; [|reflexivity].
      destruct (Z.min_spec k (bit_reverse m k)) as [[Hlt E]|[Hle E]];
        rewrite E in Hmin.
      * pose proof (Hik Hmin). split; [exact Hmin|]. lia.
      * pose proof (Hki Hmin). split; [lia|exact Hmin].
Qed.

End BitReversal.

Lemma bit_reverse_0 (m : nat) : bit_reverse m 0 = 0.
Proof.
  induction m as [|m IH]; cbn [bit_reverse]; [reflexivity|].
  change (0 mod 2) with 0. change (0 / 2) with 0. rewrite IH. lia.
Qed.

Lemma reversed_below_start (m : nat) (src : list float) :
  reversed_below m src 1 src.
Proof.
  split; [reflexivity|]. intros k Hk.
  destruct (Z.ltb_spec (Z.min k (bit_reverse m k)) 1) as [Hlt|];
    [|reflexivity].
  pose proof (bit_reverse_range m k) as Hr.
  pose proof (bit_reverse_involutive m k Hk) as Hkk.
  assert (E : k = 0 \/ bit_reverse m k = 0) by lia.
  destruct E as [->|E].
  - rewrite bit_reverse_0. reflexivity.
  - rewrite E in Hkk. rewrite bit_reverse_0 in Hkk. subst k.
    rewrite bit_reverse_0. reflexivity.
Qed.

Lemma bitrev_loop_reverses (m fuel : nat) (re0 im0 : list float) :
  (m <= 30)%nat -> (m <= fuel)%nat ->
  Z.of_nat (List.length re0) = 2 ^ Z.of_nat m ->
  Z.of_nat (List.length im0) = 2 ^ Z.of_nat m ->
  forall (count : nat) (i j : Z) (re im : list float),
    1 <= i -> i + Z.of_nat count = 2 ^ Z.of_nat m ->
    j = bit_reverse m (i - 1) ->
    reversed_below m re0 i re -> reversed_below m im0 i im ->
    exists re' im' : list float,
      bitrev_loop fuel count i j (2 ^ Z.of_nat m) re im = Return (re', im')
      /\ reversed_below m re0 (2 ^ Z.of_nat m) re'
      /\ reversed_below m im0 (2 ^ Z.of_nat m) im'.
Proof.
  intros Hm Hfuel Hre0 Him0.
  pose proof (pow2_le_2p30 m Hm) as Hp30.
  induction count as [|count IH]; intros i j re im Hi Hcount Hj Hre Him;
    cbn [bitrev_loop].
  - replace (2 ^ Z.of_nat m) with i by lia.
    exists re, im. repeat split; try apply Hre; try apply Him.
  - rewrite js_shr_half
      by (pose proof (pow2_pos m); change 2147483648 with (2 ^ 31); lia).
    destruct (bit_loop_reverse m fuel (i - 1)) as (j' & b' & Hrun & Hnext);
      try lia.
    rewrite Hj, Hrun. cbn [bind fst snd]. rewrite Hnext.
    replace (i - 1 + 1) with i by lia.
    pose proof (reversed_below_step m re0 Hre0 i re ltac:(lia) Hre) as Sre.
    pose proof (reversed_below_step m im0 Him0 i im ltac:(lia) Him) as Sim.
    destruct (i <? bit_reverse m i);
      apply IH; try assumption; try lia; f_equal; lia.
Qed.

(** X14. The first loop of the transform is the bit-reversal
    permutation.  On two buffers of length 2^m, m up to 30, it returns,
    keeps both lengths, and leaves at every index k the entry the input
    had at the index whose m-bit binary writing is that of k read
    backwards. *)
Theorem bit_reversal_loop_permutes_by_reversed_index :
  forall (m fuel : nat) (re im : list float),
    (m <= 30)%nat -> (m <= fuel)%nat ->
    Z.of_nat (List.length re) = 2 ^ Z.of_nat m ->
    List.length im = List.length re ->
    let n := Z.of_nat (List.length re) in
    exists re' im' : list float,
      bitrev_loop fuel (Z.to_nat (n - 1)) 1 0 n re im = Return (re', im')
      /\ List.length re' = List.length re
      /\ List.length im' = List.length im
      /\ forall k : Z,
          0 <= k < n ->
          0 <= bit_reverse m k < n
          /\ bit_reverse m (bit_reverse m k) = k
          /\ get re' k = get re (bit_reverse m k)
          /\ get im' k = get im (bit_reverse m k).
Proof.
  intros m fuel re im Hm Hfuel Hre Him n. subst n. rewrite Hre.
  pose proof (pow2_pos m) as Hp.
  destruct (bitrev_loop_reverses m fuel re im Hm Hfuel Hre
              ltac:(rewrite Him; exact Hre)
              (Z.to_nat (2 ^ Z.of_nat m - 1)) 1 0 re im)
    as (re' & im' & Hrun & [Lre Rre] & [Lim Rim]);
    try lia; try apply reversed_below_start.
  { symmetry. apply bit_reverse_0. }
  exists re', im'. split; [exact Hrun|]. split; [exact Lre|].
  split; [exact Lim|]. intros k Hk.
  pose proof (bit_reverse_range m k) as Hr.
  split; [exact Hr|]. split; [apply bit_reverse_involutive; exact Hk|].
  rewrite (Rre k Hk), (Rim k Hk).
  destruct (Z.ltb_spec (Z.min k (bit_reverse m k)) (2 ^ Z.of_nat m));
    [split; reflexivity|lia].
Qed.

Lemma bit_reversal_loop_permutes_by_reversed_index_witness :
  let re := [1; 2; 3; 4; 5; 6; 7; 8]%float in
  let im := [0; 0; 0; 0; 0; 0; 0; 0]%float in
  exists re' im' : list float,
    bitrev_loop 30 7 1 0 8 re im = Return (re', im')
    /\ List.length re' = 8%nat
    /\ List.length im' = 8%nat
    /\ forall k : Z,
        0 <= k < 8 ->
        0 <= bit_reverse 3 k < 8
        /\ bit_reverse 3 (bit_reverse 3 k) = k
        /\ get re' k = get re (bit_reverse 3 k)
        /\ get im' k = get im (bit_reverse 3 k).
Proof.
  intros re im.
  apply (bit_reversal_loop_permutes_by_reversed_index 3 30 re im);
    try reflexivity; lia.
Defined.

Lemma fft_keeps_lengths_witness :
  exists re' im' : list float,
    fft Reference.cos Reference.sin 30 [1; 2; 3; 4]%float [0; 0; 0; 0]%float
    = Return (re', im')
    /\ List.length re' = 4%nat /\ List.length im' = 4%nat.
Proof.
  apply (fft_keeps_lengths Reference.cos Reference.sin 30
           [1; 2; 3; 4]%float [0; 0; 0; 0]%float);
    cbn [List.length]; lia.
Defined.

Lemma degenerate_sizes_classify_as_white_noise_witness :
  2 <= 2 /\ (30 <= 30)%nat
  /\ processSignalClassify SHA256.sha256hex Reference.cos Reference.sin
       30 "s" 2
     = Return (mkResult (SHA256.sha256hex "WHITE_NOISE")
                        (Some "WHITE_NOISE")).
Proof.
  split; [lia|]. split; [lia|].
  apply (degenerate_sizes_classify_as_white_noise
           SHA256.sha256hex Reference.cos Reference.sin 30 "s" 2); lia.
Defined.

(** ** Judging and dispatching *)

Lemma judge_loop_tail (label : option string) (r : Response)
    (tail tail' : list Response) :
  strict_eq (response_output_value r) label = true ->
  forall (pre : list Response) (i bestIdx : nat),
    judge_loop label (pre ++ r :: tail) i bestIdx
    = judge_loop label (pre ++ r :: tail') i bestIdx
    /\ (i <= judge_loop label (pre ++ r :: tail) i bestIdx
        <= i + List.length pre)%nat.
Proof.
  intros Hr. induction pre as [|p pre IH]; intros i bestIdx;
    cbn [app judge_loop List.length].
  - rewrite Hr. split; [reflexivity|lia].
  - destruct (strict_eq (response_output_value p) label);
      [split; [reflexivity|lia]|].
    destruct (IH (S i) bestIdx) as [E B]. split; [exact E|lia].
Qed.

Lemma nth_error_tail (pre : list Response) (r : Response)
    (tail tail' : list Response) (i : nat) :
  (i <= List.length pre)%nat ->
  nth_error (pre ++ r :: tail) i = nth_error (pre ++ r :: tail') i.
Proof.
  intros Hi.
  change (r :: tail) with ([r] ++ tail).
  change (r :: tail') with ([r] ++ tail').
  rewrite !app_assoc.
  rewrite (nth_error_app1 (pre ++ [r]) tail),
    (nth_error_app1 (pre ++ [r]) tail')
    by (rewrite length_app; cbn [List.length]; lia).
  reflexivity.
Qed.

Lemma search_loop_shape (sha256hex : string -> string) (seed prefix : string) :
  forall (count : nat) (nonce : Z) (r : Result),
    search_loop sha256hex count seed prefix nonce = Some r ->
    exists v : string,
      output_value r = Some v /\ output_hash r = sha256hex v.
Proof.
  induction count as [|count IH]; intros nonce r; cbn [search_loop];
    [discriminate|].
  cbv zeta.
  destruct (startsWith (attempt sha256hex seed nonce) prefix).
  - intros [= <-]. eexists. split; reflexivity.
  - apply IH.
Qed.

Lemma classify_labels (par : float) : In (classify par) labels.
Proof.
  unfold classify, labels.
  destruct (gtb par 10); [left; reflexivity|].
  destruct (gtb par 5); [right; left; reflexivity|].
  destruct (gtb par 2); [right; right; left; reflexivity|].
  right; right; right; left; reflexivity.
Qed.

Lemma run_returns_small (sha256hex : string -> string)
    (Math_cos Math_sin : float -> float)
    (Number_toString_large : float -> string) (fuel : nat) (p : processor)
    (t : TaskData) :
  size_limit p = None ->
  returns (run sha256hex Math_cos Math_sin Number_toString_large fuel p t)
  = true.
Proof.
  destruct p; cbn [size_limit]; try discriminate; intros _; cbn [run].
  - unfold processHashSearch. cbv zeta.
    destruct (search_loop sha256hex (Z.to_nat 500001) (seed t)
                (searchPrefix sha256hex (seed t) (shard_size t)) 0);
      reflexivity.
  - unfold verifyCandidate. cbv zeta.
    match goal with |- context [if ?b then _ else _] => destruct b end;
      reflexivity.
  - reflexivity.
Qed.

Section FurtherDispatcherProperties.

Variable sha256hex : string -> string.
Variables Math_cos Math_sin : float -> float.
Variable Number_toString_large : float -> string.

(** X15. Judging stops reading at the first response that carries the own
    label: whatever comes after such a response, one list and another
    that differ only there get the same verdict. *)
Theorem judge_ignores_responses_after_first_match :
  forall (fuel : nat) (seed : string) (shardSize : Z) (own : Result)
         (pre : list Response) (r : Response) (tail tail' : list Response),
    processSignalClassify sha256hex Math_cos Math_sin fuel seed shardSize
    = Return own ->
    response_output_value r = output_value own ->
    judgeResponses sha256hex Math_cos Math_sin fuel seed shardSize
                   (Some (pre ++ r :: tail))
    = judgeResponses sha256hex Math_cos Math_sin fuel seed shardSize
                     (Some (pre ++ r :: tail')).
Proof.
  intros fuel seed shardSize own pre r tail tail' Hown Hr.
  unfold judgeResponses. rewrite Hown. cbn [bind].
  apply strict_eq_true in Hr.
  destruct (judge_loop_tail (output_value own) r tail tail' Hr pre 0%nat
                            0%nat) as [E B].
  pose proof (nth_error_tail pre r tail tail'
                (judge_loop (output_value own) (pre ++ r :: tail) 0 0)
                ltac:(lia)) as N.
  destruct pre as [|p pre]; cbn [app] in *; rewrite <- E, N; reflexivity.
Qed.

Lemma first_match_candidate (t : TaskData) :
  first_match rules t = Some CandidateVerification ->
  exists c : string, candidate t = Some c.
Proof.
  unfold rules. cbn [first_match].
  repeat match goal with
         | |- context [if ?b then _ else _] => destruct b eqn:?
         end; try discriminate.
  intros _.
  match goal with
  | H : _ && candidate_present t = true |- _ =>
      apply andb_true_iff in H; destruct H as [_ H]
  end.
  unfold candidate_present in *.
  destruct (candidate t) as [c|]; [exists c; reflexivity|discriminate].
Qed.

Lemma first_match_responses (t : TaskData) :
  first_match rules t = Some ResponseJudging ->
  exists rs : list Response, responses t = Some rs.
Proof.
  unfold rules. cbn [first_match].
  repeat match goal with
         | |- context [if ?b then _ else _] => destruct b eqn:?
         end; try discriminate.
  intros _.
  match goal with
  | H : _ && responses_present t = true |- _ =>
      apply andb_true_iff in H; destruct H as [_ H]
  end.
  unfold responses_present in *.
  destruct (responses t) as [rs|]; [exists rs; reflexivity|discriminate].
Qed.

Lemma processSignalClassify_shape (fuel : nat) (seed : string)
    (shardSize : Z) (r : Result) :
  processSignalClassify sha256hex Math_cos Math_sin fuel seed shardSize
  = Return r ->
  exists v : string,
    In v labels /\ output_value r = Some v /\ output_hash r = sha256hex v.
Proof.
  unfold processSignalClassify.
  destruct (pow2_loop fuel 1 shardSize) as [n| |]; cbn [bind];
    try discriminate.
  destruct (spectrum Math_cos Math_sin fuel seed n) as [ri| |]; cbn [bind];
    try discriminate.
  cbv zeta. intros [= <-]. eexists. split; [apply classify_labels|].
  split; reflexivity.
Qed.

(** X16. What a Result of the dispatcher carries, by the first rule that
    matches the Task.  Hash search, Signal classification and Simulation
    return an output_value and its digest as output_hash, the value of
    Signal classification being one of the four labels; Candidate
    verification returns "valid" with the digest of the candidate or
    "invalid" with the digest of "INVALID:" and the candidate; Response
    judging returns the decimal index of a response (0 for an empty
    list); the Spectral, Monte Carlo and SHA chain kernels return no
    output_value. *)
Theorem result_shape_by_rule :
  forall (fuel : nat) (t : TaskData) (r : Result),
    processTask sha256hex Math_cos Math_sin Number_toString_large fuel t
    = Return r ->
    match first_match rules t with
    | Some HashSearch | Some Simulation =>
        exists v : string,
          output_value r = Some v /\ output_hash r = sha256hex v
    | Some SignalClassification =>
        exists v : string,
          In v labels /\ output_value r = Some v
          /\ output_hash r = sha256hex v
    | Some CandidateVerification =>
        exists c : string,
          candidate t = Some c
          /\ ((output_value r = Some "valid"
               /\ output_hash r = sha256hex c)
              \/ (output_value r = Some "invalid"
                  /\ output_hash r = sha256hex ("INVALID:" ++ c)%string))
    | Some ResponseJudging =>
        exists (i : nat) (rs : list Response),
          responses t = Some rs
          /\ output_value r = Some (String_of_Z (Z.of_nat i))
          /\ (i < Nat.max 1 (List.length rs))%nat
    | Some Spectral | Some MonteCarlo | Some ShaChain =>
        output_value r = None
    | None => False
    end.
Proof.
  intros fuel t r Hrun.
  destruct (processTask_first_match sha256hex Math_cos Math_sin
              Number_toString_large fuel t) as (p & Hp & Hdispatch).
  rewrite Hdispatch in Hrun. rewrite Hp. destruct p; cbn [run] in Hrun.
  - unfold processHashSearch in Hrun. cbv zeta in Hrun.
    destruct (search_loop sha256hex (Z.to_nat 500001) (seed t)
                (searchPrefix sha256hex (seed t) (shard_size t)) 0)
      as [r'|] eqn:Hs; injection Hrun as <-.
    + exact (search_loop_shape _ _ _ _ _ _ Hs).
    + eexists. split; reflexivity.
  - destruct (first_match_candidate t Hp) as (c & Hc).
    rewrite Hc in Hrun. exists c. split; [exact Hc|].
    unfold verifyCandidate in Hrun. cbv zeta in Hrun.
    match type of Hrun with
    | (if ?b then _ else _) = _ => destruct b
    end; injection Hrun as <-; [left|right]; split; reflexivity.
  - exact (processSignalClassify_shape _ _ _ _ Hrun).
  - destruct (first_match_responses t Hp) as (rs & Hrs).
    rewrite Hrs, judgeResponses_judged in Hrun.
    destruct (processSignalClassify sha256hex Math_cos Math_sin fuel
                (seed t) (shard_size t)) as [own| |]; cbn [bind] in Hrun;
      try discriminate Hrun.
    injection Hrun as <-.
    destruct rs as [|r0 rest]; cbn [judged].
    + exists 0%nat, []. repeat split; try assumption. cbn. lia.
    + exists (chosen_index (output_value own) (r0 :: rest)), (r0 :: rest).
      split; [exact Hrs|]. split; [reflexivity|].
      unfold chosen_index.
      destruct (first_index (output_value own) (r0 :: rest)) as [k|] eqn:Hk.
      * destruct (first_index_Some _ _ _ Hk) as (r & Hnth & _).
        assert (nth_error (r0 :: rest) k <> None) as Hlt
            by (rewrite Hnth; discriminate).
        apply nth_error_Some in Hlt. lia.
      * cbn [List.length]. lia.
  - unfold processSimulation in Hrun.
    destruct (pow2_loop fuel 1 (shard_size t)) as [n| |]; cbn [bind] in Hrun;
      try discriminate Hrun.
    destruct (spectrum Math_cos Math_sin fuel (seed t) n) as [ri| |];
      cbn [bind] in Hrun; try discriminate Hrun.
    cbv zeta in Hrun. injection Hrun as <-. eexists. split; reflexivity.
  - unfold processFFT in Hrun.
    destruct (pow2_loop fuel 1 (shard_size t)) as [n| |]; cbn [bind] in Hrun;
      try discriminate Hrun.
    destruct (spectrum Math_cos Math_sin fuel (seed t) n) as [ri| |];
      cbn [bind] in Hrun; try discriminate Hrun.
    cbv zeta in Hrun. injection Hrun as <-. reflexivity.
  - unfold processMonteCarlo in Hrun.
    destruct (monteCarlo_loop fuel 0 (shard_size t)
                (xorshift128plus (seed t)) 0) as [inside| |];
      cbn [bind] in Hrun; try discriminate Hrun.
    cbv zeta in Hrun. injection Hrun as <-. reflexivity.
  - unfold processShaChain in Hrun. cbv zeta in Hrun.
    injection Hrun as <-. reflexivity.
Qed.

(** X17. When the dispatcher returns.  A Task whose first matching rule
    starts from the transform gets no Result when its shard_size is above
    2^29, and a Task that goes to Monte Carlo gets none above 2^53,
    whatever the fuel; every other Task gets a Result as soon as the fuel
    is enough. *)
Theorem dispatcher_returns_by_rule :
  (forall (fuel : nat) (t : TaskData) (p : processor) (limit : Z),
      first_match rules t = Some p -> size_limit p = Some limit ->
      limit < shard_size t ->
      returns (processTask sha256hex Math_cos Math_sin
                           Number_toString_large fuel t) = false)
  /\ (forall (t : TaskData) (p : processor),
        first_match rules t = Some p ->
        (forall limit : Z, size_limit p = Some limit ->
                           shard_size t <= limit) ->
        exists enough : nat,
          forall fuel : nat,
            (enough <= fuel)%nat ->
            returns (processTask sha256hex Math_cos Math_sin
                                 Number_toString_large fuel t) = true).
Proof.
  split.
  - intros fuel t p limit Hp Hlimit Hbig.
    destruct (processTask_first_match sha256hex Math_cos Math_sin
                Number_toString_large fuel t) as (p' & Hp' & ->).
    rewrite Hp in Hp'. injection Hp' as <-.
    destruct p; cbn [size_limit] in Hlimit; try discriminate Hlimit;
      injection Hlimit as <-; cbn [run].
    + apply processSignalClassify_diverges. exact Hbig.
    + apply judgeResponses_diverges. exact Hbig.
    + unfold processSimulation.
      apply (spectral_head_diverges Math_cos Math_sin fuel (seed t)
               (shard_size t) (fun n ri => _) Hbig).
    + unfold processFFT.
      apply (spectral_head_diverges Math_cos Math_sin fuel (seed t)
               (shard_size t) (fun n ri => _) Hbig).
    + rewrite processMonteCarlo_diverges by exact Hbig. reflexivity.
  - intros t p Hp Hwithin.
    exists (Nat.max 30 (Z.to_nat (shard_size t))). intros fuel Hfuel.
    destruct (processTask_first_match sha256hex Math_cos Math_sin
                Number_toString_large fuel t) as (p' & Hp' & ->).
    rewrite Hp in Hp'. injection Hp' as <-.
    destruct p; cbn [size_limit] in Hwithin;
      try (apply run_returns; [apply Hwithin; reflexivity|lia|lia]).
    + apply run_returns_small. reflexivity.
    + apply run_returns_small. reflexivity.
    + cbn [run]. specialize (Hwithin _ eq_refl).
      rewrite processMonteCarlo_counts by lia. reflexivity.
    + apply run_returns_small. reflexivity.
Qed.

End FurtherDispatcherProperties.

Lemma judge_ignores_responses_after_first_match_witness :
  let own := mkResult (SHA256.sha256hex "WHITE_NOISE") (Some "WHITE_NOISE") in
  let r0 := mkResponse "h0" (Some "PERIODIC") None in
  let r1 := mkResponse "h1" (Some "WHITE_NOISE") None in
  let r2 := mkResponse "h2" (Some "WHITE_NOISE") None in
  processSignalClassify SHA256.sha256hex Reference.cos Reference.sin 30 "s" 2
  = Return own
  /\ response_output_value r1 = output_value own
  /\ judgeResponses SHA256.sha256hex Reference.cos Reference.sin 30 "s" 2
       (Some ([r0] ++ r1 :: []))
     = judgeResponses SHA256.sha256hex Reference.cos Reference.sin 30 "s" 2
         (Some ([r0] ++ r1 :: [r2])).
Proof.
  intros own r0 r1 r2.
  assert (Hown : processSignalClassify SHA256.sha256hex Reference.cos
                   Reference.sin 30 "s" 2 = Return own)
    by (vm_compute; reflexivity).
  split; [exact Hown|]. split; [reflexivity|].
  exact (judge_ignores_responses_after_first_match
           SHA256.sha256hex Reference.cos Reference.sin 30 "s" 2 own
           [r0] r1 [] [r2] Hown eq_refl).
Defined.

Lemma result_shape_by_rule_witness :
  let t := task_of "task" "sha_chain" "s" 3 "other" "other" in
  let r := mkResult (sha_rounds SHA256.sha256hex 3 "s") None in
  reference_run 30 t = Return r /\ output_value r = None.
Proof.
  intros t r.
  assert (Hrun : reference_run 30 t = Return r) by (vm_compute; reflexivity).
  split; [exact Hrun|].
  exact (result_shape_by_rule SHA256.sha256hex Reference.cos Reference.sin
           Reference.Number_toString_large 30 t r Hrun).
Defined.
